(** * A string-keyed hash table with chaining (hash_table.c)

    Shallow embedding of [hash_table.c] and the properties of its API:
    [hash], [getIndex], [createHashTable], [insert], [get], [delete].

    Conventions of the embedding.
    - The C types are those of an LP64 platform with a signed plain [char]
      (x86-64 System V): [unsigned long] has 64 bits, [int] has 32 bits.
      Integers are mathematical integers ([Z]); every wrap-around and every
      conversion the C code performs is written out.
    - A [const char*] argument is the list of bytes found at the pointer; the
      terminating NUL is implicit at the end of the list.  Every function
      that walks a string stops at the first NUL byte, as the C code does,
      so a list that contains a NUL byte denotes the string that ends there.
    - A [void*] is an address ([Z]); [NULL] is address 0.
    - A bucket chain (a [KeyValuePair*] followed through [next]) is the list
      of its nodes, head first; the empty list is the [NULL] bucket.
    - Behaviour the C standard leaves undefined is an explicit outcome,
      [Undefined]; [malloc] succeeds or fails as an oracle tape dictates. *)

From Stdlib Require Import ZArith Lia Bool Strings.Byte Strings.String Strings.Ascii.
From Stdlib Require Import DecimalString.
From stdpp Require Import base option list gmap.

Local Open Scope Z_scope.

(** ** Machine integers *)

Definition ULONG_BITS : Z := 64.
Definition ULONG_MODULUS : Z := 2 ^ ULONG_BITS.
Definition INT_MAX : Z := 2147483647.
Definition INT_MIN : Z := -2147483648.

(** Conversion of an integer value to [unsigned long] (C11 6.3.1.3p2). *)
Definition to_ulong (z : Z) : Z := z mod ULONG_MODULUS.

(** Conversion of an integer value to [int]; out of range values are reduced
    modulo 2^32 (the implementation-defined choice of gcc and clang). *)
Definition to_int (z : Z) : Z := (z + 2 ^ 31) mod 2 ^ 32 - 2 ^ 31.

(** ** Characters and C strings *)

(** The value of a byte read as [unsigned char]. *)
Definition uchar (b : byte) : Z := Z.of_N (Byte.to_N b).

(** The value of a byte read as plain (signed) [char], promoted to [int]. *)
Definition char (b : byte) : Z :=
  if 128 <=? uchar b then uchar b - 256 else uchar b.

(** The bytes of a string literal. *)
Definition str (s : string) : list byte := list_byte_of_string s.

(** The characters of a C string: the bytes before the first NUL. *)
Fixpoint c_str (s : list byte) : list byte :=
  match s with
  | [] => []
  | b :: s' => if uchar b =? 0 then [] else b :: c_str s'
  end.

(** [strlen] of the C library. *)
Fixpoint strlen (s : list byte) : Z :=
  match s with
  | [] => 0
  | b :: s' => if uchar b =? 0 then 0 else 1 + strlen s'
  end.

(** [strcmp] of the C library (C11 7.24.4.2): the bytes are compared as
    [unsigned char] up to the first difference or the terminating NUL.  The
    standard fixes the sign of the result only; the difference of the two
    deciding bytes is returned here. *)
Fixpoint strcmp (s1 s2 : list byte) : Z :=
  match s1, s2 with
  | [], [] => 0
  | [], b2 :: _ => 0 - uchar b2
  | b1 :: _, [] => uchar b1 - 0
  | b1 :: s1', b2 :: s2' =>
      if uchar b1 =? uchar b2
      then (if uchar b1 =? 0 then 0 else strcmp s1' s2')
      else uchar b1 - uchar b2
  end.

(** ** Undefined behaviour and the allocator *)

Inductive ub : Set :=
  | DivisionByZero   (* the second operand of [%] is zero *)
  | OutOfBounds      (* an access outside the initialised bucket array *)
  | SignedOverflow.  (* [size++] at [INT_MAX] or [size--] at [INT_MIN] *)

Inductive outcome (A : Type) : Type :=
  | Ok (a : A)
  | Undefined (u : ub).
Arguments Ok {A} a.
Arguments Undefined {A} u.

Definition bind_outcome {A B : Type} (m : outcome A) (f : A -> outcome B) : outcome B :=
  match m with
  | Ok a => f a
  | Undefined u => Undefined u
  end.

Notation "x <~ m ;; k" := (bind_outcome m (fun x => k))
  (at level 100, m at next level, k at level 200, right associativity).

(** The allocator: the tape lists, in order, whether the coming allocation
    requests succeed; when the tape is used up memory is exhausted. *)
Definition tape : Type := list bool.

(** Computations that may allocate. *)
Definition M (A : Type) : Type := tape -> outcome (A * tape).

Definition ret {A : Type} (a : A) : M A := fun t => Ok (a, t).

Definition bind {A B : Type} (m : M A) (f : A -> M B) : M B := fun t =>
  match m t with
  | Ok (a, t') => f a t'
  | Undefined u => Undefined u
  end.

Notation "x <- m ;; k" := (bind m (fun x => k))
  (at level 100, m at next level, k at level 200, right associativity).

(** A computation that does not allocate. *)
Definition lift {A : Type} (o : outcome A) : M A := fun t =>
  match o with
  | Ok a => Ok (a, t)
  | Undefined u => Undefined u
  end.

(** [malloc(size)]: [true] when a block is returned, [false] for [NULL]. *)
Definition malloc (size : Z) : M bool := fun t =>
  match t with
  | [] => Ok (false, [])
  | ok :: t' => Ok (ok, t')
  end.

(** [strdup(s)]: a fresh copy of the characters of [s], or [NULL]. *)
Definition strdup (s : list byte) : M (option (list byte)) :=
  ok <- malloc (strlen s + 1);;
  if ok then ret (Some (c_str s)) else ret None.

(** ** The data model *)

Definition ptr : Type := Z.
Definition NULL : ptr := 0.

(** A chain node; the [next] field is the rest of the list the node is in. *)
Record KeyValuePair : Type := mkPair {
  key : list byte;
  value : ptr
}.

Record HashTable : Type := mkTable {
  capacity : Z;
  array : list (list KeyValuePair);
  size : Z
}.

Definition sizeof_pointer : Z := 8.
Definition sizeof_KeyValuePair : Z := 24.
Definition sizeof_HashTable : Z := 24.

(** ** The functions of hash_table.c *)

(** The loop of [hash]: [while ((c = *key++)) hash = ((hash << 5) + hash) + c;]
    in [unsigned long] arithmetic, [c] being an [int]. *)
Fixpoint hash_loop (key : list byte) (hash : Z) : Z :=
  match key with
  | [] => hash
  | b :: key' =>
      let c := char b in
      if c =? 0 then hash
      else hash_loop key'
             (to_ulong (to_ulong (to_ulong (Z.shiftl hash 5) + hash) + to_ulong c))
  end.

Definition hash (key : list byte) : Z := hash_loop key 5381.

(** [hashValue % ht->capacity]: the [int] capacity is converted to
    [unsigned long], and the remainder back to [int]. *)
Definition getIndex (ht : HashTable) (key : list byte) : outcome Z :=
  let hashValue := hash key in
  let divisor := to_ulong (capacity ht) in
  if divisor =? 0 then Undefined DivisionByZero
  else Ok (to_int (hashValue mod divisor)).

(** [ht->array[index]], read. *)
Definition bucket_at (ht : HashTable) (index : Z) : outcome (list KeyValuePair) :=
  if index <? 0 then Undefined OutOfBounds
  else match array ht !! Z.to_nat index with
       | Some chain => Ok chain
       | None => Undefined OutOfBounds
       end.

(** The bucket array after the initialisation loop of [createHashTable]. *)
Definition empty_buckets (capacity : Z) : list (list KeyValuePair) :=
  replicate (Z.to_nat capacity) [].

(** [createHashTable]: [None] is the [NULL] result. *)
Definition createHashTable (capacity : Z) : M (option HashTable) :=
  ht <- malloc sizeof_HashTable;;
  if negb ht then ret None
  else
    arr <- malloc (to_ulong (to_ulong capacity * sizeof_pointer));;
    if negb arr then ret None
    else ret (Some (mkTable capacity (empty_buckets capacity) 0)).

(** The first loop of [insert]: [Some chain'] when a node with an equal key
    was found and its value replaced, [None] when the chain was exhausted. *)
Fixpoint insert_scan (current : list KeyValuePair) (k : list byte) (v : ptr)
  : option (list KeyValuePair) :=
  match current with
  | [] => None
  | node :: next =>
      if strcmp (key node) k =? 0
      then Some (mkPair (key node) v :: next)
      else cons node <$> insert_scan next k v
  end.

Definition insert (ht : HashTable) (k : list byte) (v : ptr) : M (bool * HashTable) :=
  index <- lift (getIndex ht k);;
  current <- lift (bucket_at ht index);;
  match insert_scan current k v with
  | Some chain' =>
      ret (true, mkTable (capacity ht) (<[Z.to_nat index := chain']> (array ht)) (size ht))
  | None =>
      newPair <- malloc sizeof_KeyValuePair;;
      if negb newPair then ret (false, ht)
      else
        newKey <- strdup k;;
        match newKey with
        | None => ret (false, ht)
        | Some k' =>
            if size ht <? INT_MAX
            then ret (true, mkTable (capacity ht)
                               (<[Z.to_nat index := mkPair k' v :: current]> (array ht))
                               (size ht + 1))
            else lift (Undefined SignedOverflow)
        end
  end.

(** The loop of [get]. *)
Fixpoint get_scan (current : list KeyValuePair) (k : list byte) : ptr :=
  match current with
  | [] => NULL
  | node :: next =>
      if strcmp (key node) k =? 0 then value node else get_scan next k
  end.

Definition get (ht : HashTable) (k : list byte) : outcome ptr :=
  index <~ getIndex ht k;;
  current <~ bucket_at ht index;;
  Ok (get_scan current k).

(** The loop of [delete].  [before] holds the nodes already passed, in chain
    order, so [prev] is its last node and [prev == NULL] means it is empty.
    [Some chain'] is the chain after the unlinking, [None] means not found. *)
Fixpoint delete_scan (before current : list KeyValuePair) (k : list byte)
  : option (list KeyValuePair) :=
  match current with
  | [] => None
  | node :: next =>
      if strcmp (key node) k =? 0
      then match before with
           | [] => Some next               (* ht->array[index] = current->next *)
           | _ :: _ => Some (before ++ next) (* prev->next = current->next *)
           end
      else delete_scan (before ++ [node]) next k
  end.

Definition delete (ht : HashTable) (k : list byte) : outcome (bool * HashTable) :=
  index <~ getIndex ht k;;
  current <~ bucket_at ht index;;
  match delete_scan [] current k with
  | Some chain' =>
      if INT_MIN <? size ht
      then Ok (true, mkTable (capacity ht) (<[Z.to_nat index := chain']> (array ht))
                         (size ht - 1))
      else Undefined SignedOverflow
  | None => Ok (false, ht)
  end.

(** ** Sequences of operations *)

Inductive op : Type :=
  | Insert (k : list byte) (v : ptr)
  | Get (k : list byte)
  | Delete (k : list byte).

(** One call on the table; the results of the call are dropped, the table
    after the call is kept. *)
Definition step (ht : HashTable) (o : op) : M HashTable :=
  match o with
  | Insert k v => r <- insert ht k v;; ret (snd r)
  | Get k => _ <- lift (get ht k);; ret ht
  | Delete k => r <- lift (delete ht k);; ret (snd r)
  end.

Fixpoint run (ops : list op) (ht : HashTable) : M HashTable :=
  match ops with
  | [] => ret ht
  | o :: ops' => ht' <- step ht o;; run ops' ht'
  end.

(** ** Specification vocabulary *)

(** The key string of a node: the characters [strcmp] sees. *)
Definition key_string (e : KeyValuePair) : list byte := c_str (key e).

(** All nodes of the table, bucket after bucket. *)
Definition entries (ht : HashTable) : list KeyValuePair := concat (array ht).

(** No node of the chain has a key equal to [k]. *)
Definition misses (k : list byte) (chain : list KeyValuePair) : Prop :=
  Forall (λ e, strcmp (key e) k ≠ 0) chain.

(** The table holds a node whose key is equal to [k] for [strcmp]. *)
Definition contains (ht : HashTable) (k : list byte) : Prop :=
  ∃ e, e ∈ entries ht ∧ strcmp (key e) k = 0.

(** Each key string appears in at most one node of the whole table. *)
Definition unique_keys (ht : HashTable) : Prop :=
  NoDup (key_string <$> entries ht).

(** The representation invariant of a table with at least one bucket. *)
Record valid (ht : HashTable) : Prop := mkValid {
  valid_capacity : 0 < capacity ht <= INT_MAX;
  valid_array : Z.of_nat (length (array ht)) = capacity ht;
  valid_size : size ht = Z.of_nat (length (entries ht));
  valid_placement : ∀ (i : nat) chain e,
      array ht !! i = Some chain → e ∈ chain →
      getIndex ht (key e) = Ok (Z.of_nat i);
  valid_unique : unique_keys ht
}.

#[global] Instance byte_eq_decision : EqDecision byte := Byte.byte_eq_dec.

(** Executable forms of [contains] and [valid], to check concrete tables. *)
Definition containsb (ht : HashTable) (k : list byte) : bool :=
  existsb (λ e, strcmp (key e) k =? 0) (entries ht).

Fixpoint placedb (ht : HashTable) (i : nat) (buckets : list (list KeyValuePair))
  : bool :=
  match buckets with
  | [] => true
  | chain :: rest =>
      forallb (λ e, match getIndex ht (key e) with
                    | Ok index => index =? Z.of_nat i
                    | Undefined _ => false
                    end) chain
      && placedb ht (S i) rest
  end.

Definition validb (ht : HashTable) : bool :=
  (0 <? capacity ht) && (capacity ht <=? INT_MAX)
  && (Z.of_nat (length (array ht)) =? capacity ht)
  && (size ht =? Z.of_nat (length (entries ht)))
  && placedb ht 0 (array ht)
  && bool_decide (NoDup (key_string <$> entries ht)).

(** One djb2 round on the accumulator, as the specification words it. *)
Definition djb2_step (acc : Z) (b : byte) : Z :=
  (acc * 33 + char b) mod ULONG_MODULUS.

(** The hash of the specification: the rounds over the characters of the key,
    from 5381. *)
Definition djb2 (s : list byte) : Z := fold_left djb2_step s 5381.

(** The call [o] inserts or deletes the key [k]. *)
Definition touches (k : list byte) (o : op) : bool :=
  match o with
  | Insert k' _ | Delete k' => strcmp k' k =? 0
  | Get _ => false
  end.

(** The next [n] allocation requests are all granted. *)
Definition grants (n : nat) (t : tape) : bool :=
  bool_decide (take n t = replicate n true).

(** ** Sample tables *)

(** The table of the usage example at the end of hash_table.c: capacity 10
    with key1, key2 and key3, whose values live at addresses 100, 200, 300. *)
Definition example_table : HashTable :=
  mkTable 10
    [ []; [mkPair (str "key1") 100]; [mkPair (str "key2") 200];
      [mkPair (str "key3") 300]; []; []; []; []; []; [] ]
    3.

(** A table with two buckets in which "a", "c" and "e" collide. *)
Definition crowded_table : HashTable :=
  mkTable 2
    [ [mkPair (str "e") 50; mkPair (str "c") 30; mkPair (str "a") 10];
      [mkPair (str "b") 20] ]
    4.

(** The calls that insert the pairs of [kvs], in order. *)
Definition inserts (kvs : list (list byte * ptr)) : list op :=
  (λ kv, Insert kv.1 kv.2) <$> kvs.

(** ** The debugging dump

    [printHashTable] writes to the standard output; the embedding returns the
    text written. *)

(** What [printf] writes for [%d], for [%s] and for the newline. *)
Definition decimal (z : Z) : string := NilZero.string_of_int (Z.to_int z).
Definition characters (s : list byte) : string := string_of_list_byte (c_str s).
Definition newline : string := String "010"%char EmptyString.

(** The inner loop of [printHashTable]: " [key]->" for each node. *)
Fixpoint print_chain (current : list KeyValuePair) : string :=
  match current with
  | [] => EmptyString
  | node :: next =>
      String.append " [" (String.append (characters (key node))
        (String.append "]->" (print_chain next)))
  end.

(** The outer loop of [printHashTable], with [n] buckets to go from [i]. *)
Fixpoint print_buckets (n : nat) (ht : HashTable) (i : Z) : outcome string :=
  match n with
  | O => Ok EmptyString
  | S n' =>
      current <~ bucket_at ht i;;
      let line :=
        match current with
        | [] => EmptyString
        | _ :: _ =>
            String.append "  Bucket " (String.append (decimal i)
              (String.append ":" (String.append (print_chain current)
                (String.append "NULL" newline))))
        end in
      rest <~ print_buckets n' ht (i + 1);;
      Ok (String.append line rest)
  end.

(** The first [printf] of [printHashTable]. *)
Definition dump_header (sz cap : Z) : string :=
  String.append "Hash Table (size: " (String.append (decimal sz)
    (String.append ", capacity: " (String.append (decimal cap)
      (String.append ")" newline)))).

Definition printHashTable (ht : HashTable) : outcome string :=
  body <~ print_buckets (Z.to_nat (capacity ht)) ht 0;;
  Ok (String.append (dump_header (size ht) (capacity ht)) body).

(** What the dump is meant to show: for each bucket that is not empty, in
    index order, its index and the keys of its chain, in chain order. *)
Fixpoint describe_from (i : nat) (buckets : list (list KeyValuePair))
  : list (nat * list (list byte)) :=
  match buckets with
  | [] => []
  | [] :: rest => describe_from (S i) rest
  | (node :: next) :: rest =>
      (i, (λ e, c_str (key e)) <$> (node :: next)) :: describe_from (S i) rest
  end.

Definition describe (ht : HashTable) : list (nat * list (list byte)) :=
  describe_from 0 (array ht).

(** The text of a description: one line for each bucket. *)
Definition render_bucket (b : nat * list (list byte)) : string :=
  String.append "  Bucket " (String.append (decimal (Z.of_nat b.1))
    (String.append ":"
      (String.append
         (String.concat EmptyString
            ((λ k, String.append " [" (String.append (string_of_list_byte k) "]->"))
               <$> b.2))
         (String.append "NULL" newline)))).

Definition render (sz cap : Z) (d : list (nat * list (list byte))) : string :=
  String.append (dump_header sz cap)
    (String.concat EmptyString (render_bucket <$> d)).

(** ** The same functions on a heap of blocks

    The functions above keep a chain as a list.  Here they are embedded once
    more, pointer by pointer, on a heap: [malloc] and [free] add and remove
    blocks, a node is a block that holds the addresses of its key and of the
    next node, and the table is a block that holds the address of the bucket
    array.  This is the level at which [free] and [freeHashTable] act.

    A block is written as a whole: the fields of a block that [malloc] has
    just returned ([Raw]) are all stored before the block is read or linked,
    and they are stored here in one step.  The key argument of a call is the
    list of its bytes, as above; a value pointer is never followed. *)

Module Heap.

Inductive block : Type :=
  | Raw                                     (* returned by malloc, nothing stored yet *)
  | Chars (s : list byte)                   (* the characters of a string, NUL implicit *)
  | Pair (k : ptr) (v : ptr) (next : ptr)   (* struct KeyValuePair *)
  | Slots (b : list ptr)                    (* KeyValuePair* [capacity] *)
  | Head (cap : Z) (arr : ptr) (sz : Z).    (* struct HashTable *)

Abbreviation heap := (gmap Z block).

(** Why a call does not return. *)
Inductive failure : Set :=
  | Undef (u : ub)   (* the undefined behaviour of the list level *)
  | NullDeref        (* a load or store through NULL *)
  | Dangling         (* a load or store through an address that is not allocated *)
  | WrongType        (* a block read as what it is not *)
  | InvalidFree      (* free of an address that is not allocated (double free) *)
  | Diverges.        (* a chain that runs in a circle: the loop never ends *)

Inductive result (A : Type) : Type :=
  | Done (a : A)
  | Fails (f : failure).
Arguments Done {A} a.
Arguments Fails {A} f.

(** The allocator: the supply lists, in order, the address that the coming
    [malloc] returns, or [None] when it fails; an address that is [NULL] or
    still allocated is no possible answer and is read as a failure. *)
Record state : Type := mkState {
  blocks : heap;
  supply : list (option Z)
}.

Definition P (A : Type) : Type := state → result (A * state).

Definition ret {A : Type} (a : A) : P A := λ st, Done (a, st).

Definition bind {A B : Type} (m : P A) (f : A → P B) : P B := λ st,
  match m st with
  | Done (a, st') => f a st'
  | Fails r => Fails r
  end.

Notation "x <<- m ;; k" := (bind m (fun x => k))
  (at level 100, m at next level, k at level 200, right associativity).
Notation "m ;;; k" := (bind m (fun _ => k))
  (at level 100, k at level 200, right associativity).

Definition fails {A : Type} (f : failure) : P A := λ _, Fails f.

Definition lift {A : Type} (o : outcome A) : P A :=
  match o with
  | Ok a => ret a
  | Undefined u => fails (Undef u)
  end.

Definition load (p : ptr) : P block := λ st,
  if decide (p = NULL) then Fails NullDeref
  else match blocks st !! p with
       | Some b => Done (b, st)
       | None => Fails Dangling
       end.

Definition store (p : ptr) (b : block) : P unit := λ st,
  if decide (p = NULL) then Fails NullDeref
  else match blocks st !! p with
       | Some _ => Done (tt, mkState (<[p:=b]> (blocks st)) (supply st))
       | None => Fails Dangling
       end.

Definition malloc (size : Z) : P ptr := λ st,
  match supply st with
  | [] => Done (NULL, st)
  | None :: rest => Done (NULL, mkState (blocks st) rest)
  | Some a :: rest =>
      if decide (a ≠ NULL ∧ blocks st !! a = None)
      then Done (a, mkState (<[a:=Raw]> (blocks st)) rest)
      else Done (NULL, mkState (blocks st) rest)
  end.

Definition free (p : ptr) : P unit := λ st,
  if decide (p = NULL) then Done (tt, st)
  else match blocks st !! p with
       | Some _ => Done (tt, mkState (base.delete p (blocks st)) (supply st))
       | None => Fails InvalidFree
       end.

Definition load_head (ht : ptr) : P (Z * ptr * Z) :=
  b <<- load ht;;
  match b with Head c a s => ret (c, a, s) | _ => fails WrongType end.

Definition load_pair (p : ptr) : P (ptr * ptr * ptr) :=
  b <<- load p;;
  match b with Pair k v n => ret (k, v, n) | _ => fails WrongType end.

Definition load_chars (p : ptr) : P (list byte) :=
  b <<- load p;;
  match b with Chars s => ret s | _ => fails WrongType end.

Definition load_slots (p : ptr) : P (list ptr) :=
  b <<- load p;;
  match b with Slots l => ret l | _ => fails WrongType end.

(** [ht->array[index]], read. *)
Definition read_bucket (ht : ptr) (index : Z) : P ptr :=
  hd <<- load_head ht;;
  slots <<- load_slots hd.1.2;;
  if index <? 0 then fails (Undef OutOfBounds)
  else match slots !! Z.to_nat index with
       | Some p => ret p
       | None => fails (Undef OutOfBounds)
       end.

(** [ht->array[index] = p]. *)
Definition write_bucket (ht : ptr) (index : Z) (p : ptr) : P unit :=
  hd <<- load_head ht;;
  slots <<- load_slots hd.1.2;;
  if (index <? 0) || (Z.of_nat (length slots) <=? index)
  then fails (Undef OutOfBounds)
  else store hd.1.2 (Slots (<[Z.to_nat index:=p]> slots)).

(** The loops stop on a chain that ends.  A chain that does not end runs in
    a circle through blocks of the heap, so a loop that has passed more nodes
    than the heap has blocks never ends. *)
Definition patience : P nat := λ st, Done (S (base.size (blocks st)), st).

Definition strdup (s : list byte) : P ptr :=
  p <<- malloc (strlen s + 1);;
  if decide (p = NULL) then ret NULL
  else store p (Chars (c_str s));;; ret p.

Definition getIndex (ht : ptr) (k : list byte) : P Z :=
  hd <<- load_head ht;;
  let hashValue := hash k in
  let divisor := to_ulong hd.1.1 in
  if divisor =? 0 then fails (Undef DivisionByZero)
  else ret (to_int (hashValue mod divisor)).

Definition createHashTable (capacity : Z) : P ptr :=
  ht <<- malloc sizeof_HashTable;;
  if decide (ht = NULL) then ret NULL
  else
    arr <<- malloc (to_ulong (to_ulong capacity * sizeof_pointer));;
    if decide (arr = NULL) then free ht;;; ret NULL
    else
      store arr (Slots (replicate (Z.to_nat capacity) NULL));;;
      store ht (Head capacity arr 0);;;
      ret ht.

(** The first loop of [insert]: [true] when a node with an equal key was
    found and its value replaced. *)
Fixpoint insert_loop (n : nat) (current : ptr) (k : list byte) (v : ptr) : P bool :=
  match n with
  | O => fails Diverges
  | S n' =>
      if decide (current = NULL) then ret false
      else
        node <<- load_pair current;;
        s <<- load_chars node.1.1;;
        if strcmp s k =? 0
        then store current (Pair node.1.1 v node.2);;; ret true
        else insert_loop n' node.2 k v
  end.

Definition insert (ht : ptr) (k : list byte) (v : ptr) : P bool :=
  index <<- getIndex ht k;;
  current <<- read_bucket ht index;;
  n <<- patience;;
  found <<- insert_loop n current k v;;
  if found then ret true
  else
    newPair <<- malloc sizeof_KeyValuePair;;
    if decide (newPair = NULL) then ret false
    else
      newKey <<- strdup k;;
      if decide (newKey = NULL) then free newPair;;; ret false
      else
        head <<- read_bucket ht index;;
        store newPair (Pair newKey v head);;;
        write_bucket ht index newPair;;;
        hd <<- load_head ht;;
        if hd.2 <? INT_MAX
        then store ht (Head hd.1.1 hd.1.2 (hd.2 + 1));;; ret true
        else fails (Undef SignedOverflow).

Fixpoint get_loop (n : nat) (current : ptr) (k : list byte) : P ptr :=
  match n with
  | O => fails Diverges
  | S n' =>
      if decide (current = NULL) then ret NULL
      else
        node <<- load_pair current;;
        s <<- load_chars node.1.1;;
        if strcmp s k =? 0 then ret node.1.2
        else get_loop n' node.2 k
  end.

Definition get (ht : ptr) (k : list byte) : P ptr :=
  index <<- getIndex ht k;;
  current <<- read_bucket ht index;;
  n <<- patience;;
  get_loop n current k.

Fixpoint delete_loop (n : nat) (ht : ptr) (index : Z) (current prev : ptr)
    (k : list byte) : P bool :=
  match n with
  | O => fails Diverges
  | S n' =>
      if decide (current = NULL) then ret false
      else
        node <<- load_pair current;;
        s <<- load_chars node.1.1;;
        if strcmp s k =? 0
        then
          (if decide (prev = NULL)
           then write_bucket ht index node.2
           else p <<- load_pair prev;; store prev (Pair p.1.1 p.1.2 node.2));;;
          free node.1.1;;;
          free current;;;
          hd <<- load_head ht;;
          if INT_MIN <? hd.2
          then store ht (Head hd.1.1 hd.1.2 (hd.2 - 1));;; ret true
          else fails (Undef SignedOverflow)
        else delete_loop n' ht index node.2 current k
  end.

Definition delete (ht : ptr) (k : list byte) : P bool :=
  index <<- getIndex ht k;;
  current <<- read_bucket ht index;;
  n <<- patience;;
  delete_loop n ht index current NULL k.

(** The inner loop of [freeHashTable]. *)
Fixpoint free_chain (n : nat) (current : ptr) : P unit :=
  match n with
  | O => fails Diverges
  | S n' =>
      if decide (current = NULL) then ret tt
      else
        node <<- load_pair current;;
        free node.1.1;;;
        free current;;;
        free_chain n' node.2
  end.

(** The outer loop of [freeHashTable], with [n] buckets to go from [i]. *)
Fixpoint free_buckets (n : nat) (ht : ptr) (i : Z) : P unit :=
  match n with
  | O => ret tt
  | S n' =>
      current <<- read_bucket ht i;;
      m <<- patience;;
      free_chain m current;;;
      free_buckets n' ht (i + 1)
  end.

Definition freeHashTable (ht : ptr) : P unit :=
  if decide (ht = NULL) then ret tt
  else
    hd <<- load_head ht;;
    free_buckets (Z.to_nat hd.1.1) ht 0;;;
    hd' <<- load_head ht;;
    free hd'.1.2;;;
    free ht.

(** One call on the table at [ht], and a sequence of calls. *)
Definition step (ht : ptr) (o : op) : P unit :=
  match o with
  | Insert k v => insert ht k v;;; ret tt
  | Get k => get ht k;;; ret tt
  | Delete k => delete ht k;;; ret tt
  end.

Fixpoint run (ops : list op) (ht : ptr) : P unit :=
  match ops with
  | [] => ret tt
  | o :: ops' => step ht o;;; run ops' ht
  end.

(** The life of a table in the hands of a caller: [createHashTable], the
    calls on the table, [freeHashTable]; when no table could be created
    nothing more is done. *)
Definition lifecycle (capacity : Z) (ops : list op) : P unit :=
  ht <<- createHashTable capacity;;
  if decide (ht = NULL) then ret tt
  else run ops ht;;; freeHashTable ht.

(** ** The heap as a table *)

(** The chain that starts at [p] is [chain], and [cells] are the addresses
    of its blocks: each node, followed by its key. *)
Fixpoint chain_at (h : heap) (p : ptr) (chain : list KeyValuePair)
    (cells : list Z) : Prop :=
  match chain with
  | [] => p = NULL ∧ cells = []
  | e :: rest =>
      ∃ kp next cells',
        p ≠ NULL ∧ kp ≠ NULL ∧ cells = p :: kp :: cells' ∧
        h !! p = Some (Pair kp (value e) next) ∧
        h !! kp = Some (Chars (key e)) ∧
        chain_at h next rest cells'
  end.

(** Bucket by bucket. *)
Definition buckets_at (h : heap) (slots : list ptr)
    (chains : list (list KeyValuePair)) (cellss : list (list Z)) : Prop :=
  length slots = length chains ∧ length cellss = length chains ∧
  ∀ (i : nat) p chain cells,
    slots !! i = Some p → chains !! i = Some chain → cellss !! i = Some cells →
    chain_at h p chain cells.

(** The heap [h] holds the table [T] at the address [ht], in the blocks at
    [cells], no two of which are the same block. *)
Definition table_at (h : heap) (ht : ptr) (T : HashTable) (cells : list Z)
  : Prop :=
  ∃ arr slots cellss,
    ht ≠ NULL ∧ arr ≠ NULL ∧
    cells = ht :: arr :: concat cellss ∧ NoDup cells ∧
    h !! ht = Some (Head (capacity T) arr (size T)) ∧
    h !! arr = Some (Slots slots) ∧
    buckets_at h slots (array T) cellss.

(** The heap [h] is the heap [h0] and, beside it, blocks at [cells]. *)
Definition extends (h0 h : heap) (cells : list Z) : Prop :=
  (∀ p, p ∈ cells → h0 !! p = None) ∧ (∀ p, p ∉ cells → h !! p = h0 !! p).

End Heap.

(** A sample heap: the table with "c" and "a" in bucket 0 and "b" in
    bucket 1, at address 100, beside a block at address 5 that is not the
    table's. *)
Definition sample_table : HashTable :=
  mkTable 2 [ [mkPair (str "c") 30; mkPair (str "a") 10]; [mkPair (str "b") 20] ] 3.

Definition foreign_heap : gmap Z Heap.block := {[ 5 := Heap.Raw ]}.

Definition sample_heap : gmap Z Heap.block :=
  <[100:=Heap.Head 2 200 3]>
    (<[200:=Heap.Slots [300; 500]]>
       (<[300:=Heap.Pair 400 30 700]>
          (<[400:=Heap.Chars (str "c")]>
             (<[700:=Heap.Pair 800 10 0]>
                (<[800:=Heap.Chars (str "a")]>
                   (<[500:=Heap.Pair 600 20 0]>
                      (<[600:=Heap.Chars (str "b")]> foreign_heap))))))).

Definition sample_cells : list Z := [100; 200; 300; 400; 700; 800; 500; 600].

(** ** Integers, characters and strings *)

Lemma ULONG_MODULUS_pos : 0 < ULONG_MODULUS.
Proof. reflexivity. Qed.

Lemma to_ulong_range z : 0 <= to_ulong z < ULONG_MODULUS.
Proof. apply Z.mod_pos_bound, ULONG_MODULUS_pos. Qed.

Lemma to_ulong_small z : 0 <= z <= INT_MAX → to_ulong z = z.
Proof.
  intros Hz. apply Z.mod_small.
  assert (INT_MAX < ULONG_MODULUS) by reflexivity. lia.
Qed.

Lemma to_int_small z : INT_MIN <= z <= INT_MAX → to_int z = z.
Proof.
  unfold to_int, INT_MIN, INT_MAX. intros Hz.
  rewrite Z.mod_small; lia.
Qed.

Lemma uchar_range b : 0 <= uchar b <= 255.
Proof.
  unfold uchar. pose proof (Byte.to_N_bounded b). lia.
Qed.

Lemma uchar_inj a b : uchar a = uchar b → a = b.
Proof.
  unfold uchar. intros H%N2Z.inj.
  assert (Some a = Some b) as [= ->]; [|done].
  by rewrite <- (Byte.of_to_N a), <- (Byte.of_to_N b), H.
Qed.

Lemma char_eqb_0 b : (char b =? 0) = (uchar b =? 0).
Proof.
  unfold char. pose proof (uchar_range b).
  destruct (Z.leb_spec 128 (uchar b));
    destruct (Z.eqb_spec (uchar b) 0); try lia;
    apply Z.eqb_neq; lia.
Qed.

(** On 7-bit characters the signed and the unsigned reading agree. *)
Lemma char_ascii b : uchar b < 128 → char b = uchar b.
Proof. unfold char. intros H. by destruct (Z.leb_spec 128 (uchar b)); [lia|]. Qed.

Lemma c_str_idemp s : c_str (c_str s) = c_str s.
Proof.
  induction s as [|b s IH]; simpl; [done|].
  destruct (uchar b =? 0) eqn:E; simpl; [done|]. by rewrite E, IH.
Qed.

Lemma strcmp_c_str s1 s2 : strcmp s1 s2 = 0 ↔ c_str s1 = c_str s2.
Proof.
  revert s2. induction s1 as [|b1 s1 IH]; intros [|b2 s2]; simpl.
  - done.
  - destruct (Z.eqb_spec (uchar b2) 0); split; (done || lia).
  - destruct (Z.eqb_spec (uchar b1) 0); split; (done || lia).
  - destruct (Z.eqb_spec (uchar b1) (uchar b2)) as [Heq|Hne].
    + apply uchar_inj in Heq as ->.
      destruct (Z.eqb_spec (uchar b2) 0); [done|].
      rewrite IH. split; [by intros ->|by intros [= ->]].
    + split; [lia|].
      destruct (Z.eqb_spec (uchar b1) 0), (Z.eqb_spec (uchar b2) 0);
        try done; try lia.
      intros [= -> _]. done.
Qed.

Lemma strcmp_refl s : strcmp s s = 0.
Proof. by apply strcmp_c_str. Qed.

Lemma strcmp_sym s1 s2 : strcmp s1 s2 = 0 → strcmp s2 s1 = 0.
Proof. rewrite !strcmp_c_str. done. Qed.

Lemma strcmp_trans s1 s2 s3 :
  strcmp s1 s2 = 0 → strcmp s2 s3 = 0 → strcmp s1 s3 = 0.
Proof. rewrite !strcmp_c_str. congruence. Qed.

Lemma strcmp_c_str_l s1 s2 : strcmp (c_str s1) s2 = 0 ↔ strcmp s1 s2 = 0.
Proof. by rewrite !strcmp_c_str, c_str_idemp. Qed.

(** ** The hash function *)

Lemma hash_round h c :
  to_ulong (to_ulong (to_ulong (Z.shiftl h 5) + h) + to_ulong c)
  = (h * 33 + c) mod ULONG_MODULUS.
Proof.
  unfold to_ulong. rewrite Z.shiftl_mul_pow2 by lia.
  rewrite Zplus_mod_idemp_l, Zplus_mod_idemp_r, <- Z.add_assoc, Zplus_mod_idemp_l.
  f_equal. lia.
Qed.

Lemma hash_loop_fold k h : hash_loop k h = fold_left djb2_step (c_str k) h.
Proof.
  revert h. induction k as [|b k IH]; intros h; simpl; [done|].
  rewrite char_eqb_0. destruct (uchar b =? 0); simpl; [done|].
  by rewrite IH, hash_round.
Qed.

Lemma hash_c_str k : hash (c_str k) = hash k.
Proof. unfold hash. by rewrite !hash_loop_fold, c_str_idemp. Qed.

Lemma hash_strcmp k1 k2 : strcmp k1 k2 = 0 → hash k1 = hash k2.
Proof.
  intros H%strcmp_c_str. by rewrite <- (hash_c_str k1), H, hash_c_str.
Qed.

Lemma hash_loop_range k h :
  0 <= h < ULONG_MODULUS → 0 <= hash_loop k h < ULONG_MODULUS.
Proof.
  revert h. induction k as [|b k IH]; intros h Hh; simpl; [done|].
  destruct (char b =? 0); [done|]. apply IH, to_ulong_range.
Qed.

Lemma hash_range k : 0 <= hash k < ULONG_MODULUS.
Proof. apply hash_loop_range. split; [lia|reflexivity]. Qed.

(** ** The bucket index *)

Lemma getIndex_positive ht k :
  0 < capacity ht <= INT_MAX →
  getIndex ht k = Ok (hash k mod capacity ht).
Proof.
  intros Hc. unfold getIndex. rewrite to_ulong_small by lia.
  destruct (Z.eqb_spec (capacity ht) 0); [lia|].
  f_equal. apply to_int_small.
  pose proof (Z.mod_pos_bound (hash k) (capacity ht)). unfold INT_MIN. lia.
Qed.

Lemma getIndex_capacity ht1 ht2 k :
  capacity ht1 = capacity ht2 → getIndex ht1 k = getIndex ht2 k.
Proof. unfold getIndex. by intros ->. Qed.

Lemma getIndex_strcmp ht k1 k2 :
  strcmp k1 k2 = 0 → getIndex ht k1 = getIndex ht k2.
Proof. unfold getIndex. by intros ->%hash_strcmp. Qed.

Lemma bucket_at_lookup ht (i : nat) chain :
  array ht !! i = Some chain → bucket_at ht (Z.of_nat i) = Ok chain.
Proof.
  intros H. unfold bucket_at.
  destruct (Z.ltb_spec (Z.of_nat i) 0); [lia|]. by rewrite Nat2Z.id, H.
Qed.

Lemma bucket_at_inv ht index chain :
  bucket_at ht index = Ok chain →
  0 <= index ∧ array ht !! Z.to_nat index = Some chain.
Proof.
  unfold bucket_at. destruct (Z.ltb_spec index 0); [done|].
  destruct (array ht !! Z.to_nat index); [|done]. by intros [= ->].
Qed.

(** In a table with [capacity] buckets, one for each index, every key has
    its bucket. *)
Lemma locate ht k :
  0 < capacity ht <= INT_MAX →
  Z.of_nat (length (array ht)) = capacity ht →
  ∃ (i : nat) chain,
    Z.of_nat i = hash k mod capacity ht ∧
    getIndex ht k = Ok (Z.of_nat i) ∧
    array ht !! i = Some chain ∧
    bucket_at ht (Z.of_nat i) = Ok chain.
Proof.
  intros Hc Hlen.
  pose proof (Z.mod_pos_bound (hash k) (capacity ht)) as Hm.
  destruct (lookup_lt_is_Some_2 (array ht) (Z.to_nat (hash k mod capacity ht)))
    as [chain Hchain]; [lia|].
  exists (Z.to_nat (hash k mod capacity ht)), chain.
  rewrite Z2Nat.id by lia.
  split_and!; [done|by apply getIndex_positive|done|].
  rewrite <- (Z2Nat.id (hash k mod capacity ht)) by lia.
  by apply bucket_at_lookup.
Qed.

(** ** The chain loops *)

(** The scan of a chain for [k] either passes every node, or stops at the
    first node whose key is equal to [k]. *)
Lemma scan_cases chain k :
  misses k chain ∨
  ∃ pre e post, chain = pre ++ e :: post ∧ misses k pre ∧ strcmp (key e) k = 0.
Proof.
  induction chain as [|node next IH]; [left; constructor|].
  destruct (Z.eq_dec (strcmp (key node) k) 0) as [Heq|Hne].
  - right. exists [], node, next. split_and!; [done|constructor|done].
  - destruct IH as [Hmiss|(pre & e & post & -> & Hpre & He)].
    + left. by constructor.
    + right. exists (node :: pre), e, post. split_and!; [done|by constructor|done].
Qed.

Lemma insert_scan_miss chain k v : misses k chain → insert_scan chain k v = None.
Proof.
  induction 1 as [|node next Hne _ IH]; simpl; [done|].
  destruct (Z.eqb_spec (strcmp (key node) k) 0); [done|]. by rewrite IH.
Qed.

Lemma insert_scan_hit pre e post k v :
  misses k pre → strcmp (key e) k = 0 →
  insert_scan (pre ++ e :: post) k v = Some (pre ++ mkPair (key e) v :: post).
Proof.
  intros Hpre He. induction Hpre as [|node next Hne _ IH]; simpl.
  - by rewrite He.
  - destruct (Z.eqb_spec (strcmp (key node) k) 0); [done|]. by rewrite IH.
Qed.

Lemma insert_scan_None chain k v : insert_scan chain k v = None → misses k chain.
Proof.
  destruct (scan_cases chain k) as [|(pre & e & post & -> & Hpre & He)]; [done|].
  by rewrite insert_scan_hit.
Qed.

Lemma get_scan_miss chain k : misses k chain → get_scan chain k = NULL.
Proof.
  induction 1 as [|node next Hne _ IH]; simpl; [done|].
  by destruct (Z.eqb_spec (strcmp (key node) k) 0).
Qed.

Lemma get_scan_hit pre e post k :
  misses k pre → strcmp (key e) k = 0 →
  get_scan (pre ++ e :: post) k = value e.
Proof.
  intros Hpre He. induction Hpre as [|node next Hne _ IH]; simpl.
  - by rewrite He.
  - by destruct (Z.eqb_spec (strcmp (key node) k) 0).
Qed.

Lemma delete_scan_miss before chain k :
  misses k chain → delete_scan before chain k = None.
Proof.
  intros H. revert before. induction H as [|node next Hne _ IH]; intros before; simpl; [done|].
  by destruct (Z.eqb_spec (strcmp (key node) k) 0).
Qed.

Lemma delete_scan_hit before pre e post k :
  misses k pre → strcmp (key e) k = 0 →
  delete_scan before (pre ++ e :: post) k = Some (before ++ pre ++ post).
Proof.
  intros Hpre He. revert before.
  induction Hpre as [|node next Hne _ IH]; intros before; simpl.
  - rewrite He. simpl. by destruct before.
  - destruct (Z.eqb_spec (strcmp (key node) k) 0); [done|].
    by rewrite IH, <- app_assoc.
Qed.

Lemma delete_scan_None chain k : delete_scan [] chain k = None → misses k chain.
Proof.
  destruct (scan_cases chain k) as [|(pre & e & post & -> & Hpre & He)]; [done|].
  by rewrite delete_scan_hit.
Qed.

(** A key different from [k] does not change what a scan for [k] sees. *)
Lemma misses_strcmp k k' chain :
  strcmp k' k = 0 → misses k chain → misses k' chain.
Proof.
  intros Hk Hm. eapply Forall_impl; [exact Hm|].
  intros e He Hek'. apply He. by eapply strcmp_trans.
Qed.

Lemma get_scan_insert_scan_other chain chain' k k' v :
  strcmp k' k ≠ 0 → insert_scan chain k' v = Some chain' →
  get_scan chain' k = get_scan chain k.
Proof.
  intros Hne. revert chain'. induction chain as [|node next IH]; intros chain'; simpl; [done|].
  destruct (Z.eqb_spec (strcmp (key node) k') 0) as [Hk'|Hk'].
  - intros [= <-]. simpl.
    destruct (Z.eqb_spec (strcmp (key node) k) 0) as [Hk|Hk]; [|done].
    destruct Hne. eapply strcmp_trans; [|done]. by apply strcmp_sym.
  - destruct (insert_scan next k' v) as [next'|]; [|done].
    intros [= <-]. simpl. by rewrite (IH next').
Qed.

Lemma get_scan_app_miss pre post k :
  misses k pre → get_scan (pre ++ post) k = get_scan post k.
Proof.
  induction 1 as [|node next Hne _ IH]; simpl; [done|].
  by destruct (Z.eqb_spec (strcmp (key node) k) 0).
Qed.

Lemma get_scan_delete_scan_other chain chain' k k' :
  strcmp k' k ≠ 0 → delete_scan [] chain k' = Some chain' →
  get_scan chain' k = get_scan chain k.
Proof.
  intros Hne.
  destruct (scan_cases chain k') as [Hm|(pre & e & post & -> & Hpre & He)].
  - by rewrite delete_scan_miss.
  - rewrite delete_scan_hit by done. intros [= <-]. simpl.
    assert (strcmp (key e) k ≠ 0) as Hek.
    { intros Hek. destruct Hne. eapply strcmp_trans; [|done]. by apply strcmp_sym. }
    clear Hpre. induction pre as [|node pre IH]; simpl.
    + by destruct (Z.eqb_spec (strcmp (key e) k) 0).
    + by rewrite IH.
Qed.

(** ** The calls, bucket by bucket *)

Lemma get_at ht k (i : nat) chain :
  getIndex ht k = Ok (Z.of_nat i) → array ht !! i = Some chain →
  get ht k = Ok (get_scan chain k).
Proof.
  intros Hi Hc. unfold get. rewrite Hi. simpl.
  by rewrite (bucket_at_lookup _ _ _ Hc).
Qed.

Lemma get_Ok ht k p :
  get ht k = Ok p →
  ∃ (i : nat) chain,
    getIndex ht k = Ok (Z.of_nat i) ∧ array ht !! i = Some chain ∧
    p = get_scan chain k.
Proof.
  unfold get. destruct (getIndex ht k) as [index|] eqn:Hi; [simpl|done].
  destruct (bucket_at ht index) as [chain|] eqn:Hc; [simpl|done].
  apply bucket_at_inv in Hc as [Hpos Hc]. intros [= <-].
  exists (Z.to_nat index), chain. by rewrite Z2Nat.id.
Qed.

Lemma insert_found ht k v t (i : nat) chain chain' :
  getIndex ht k = Ok (Z.of_nat i) → array ht !! i = Some chain →
  insert_scan chain k v = Some chain' →
  insert ht k v t
  = Ok ((true, mkTable (capacity ht) (<[i:=chain']> (array ht)) (size ht)), t).
Proof.
  intros Hi Hc Hs. unfold insert, bind, lift. rewrite Hi.
  rewrite (bucket_at_lookup _ _ _ Hc), Hs, Nat2Z.id. done.
Qed.

Lemma insert_Ok ht k v t b ht' t' :
  insert ht k v t = Ok ((b, ht'), t') →
  ∃ (i : nat) chain,
    getIndex ht k = Ok (Z.of_nat i) ∧ array ht !! i = Some chain ∧
    ((∃ chain', insert_scan chain k v = Some chain' ∧ b = true ∧ t' = t ∧
        ht' = mkTable (capacity ht) (<[i:=chain']> (array ht)) (size ht))
     ∨ (misses k chain ∧ b = true ∧ size ht < INT_MAX ∧
        ht' = mkTable (capacity ht)
                (<[i:=mkPair (c_str k) v :: chain]> (array ht)) (size ht + 1))
     ∨ (misses k chain ∧ b = false ∧ ht' = ht)).
Proof.
  unfold insert, bind, lift.
  destruct (getIndex ht k) as [index|] eqn:Hi; [|done].
  destruct (bucket_at ht index) as [chain|] eqn:Hc; [|done].
  apply bucket_at_inv in Hc as [Hpos Hc]. intros H.
  exists (Z.to_nat index), chain. rewrite Z2Nat.id by done.
  split_and!; [done..|].
  destruct (insert_scan chain k v) as [chain'|] eqn:Hs.
  - left. exists chain'. unfold ret in H. by injection H as <- <- <-.
  - apply insert_scan_None in Hs. right.
    unfold malloc, strdup, bind, ret in H.
    destruct t as [|[] [|[] t]]; simpl in H;
      try (right; by injection H as <- <- <-).
    destruct (Z.ltb_spec (size ht) INT_MAX); [|done].
    left. by injection H as <- <- <-.
Qed.

Lemma delete_found ht k (i : nat) pre e post :
  getIndex ht k = Ok (Z.of_nat i) → array ht !! i = Some (pre ++ e :: post) →
  misses k pre → strcmp (key e) k = 0 → INT_MIN < size ht →
  delete ht k
  = Ok (true, mkTable (capacity ht) (<[i:=pre ++ post]> (array ht)) (size ht - 1)).
Proof.
  intros Hi Hc Hpre He Hsz. unfold delete. rewrite Hi. simpl.
  rewrite (bucket_at_lookup _ _ _ Hc). simpl.
  rewrite delete_scan_hit by done. simpl.
  destruct (Z.ltb_spec INT_MIN (size ht)); [|lia]. by rewrite Nat2Z.id.
Qed.

Lemma delete_missed ht k (i : nat) chain :
  getIndex ht k = Ok (Z.of_nat i) → array ht !! i = Some chain →
  misses k chain → delete ht k = Ok (false, ht).
Proof.
  intros Hi Hc Hm. unfold delete. rewrite Hi. simpl.
  rewrite (bucket_at_lookup _ _ _ Hc). simpl.
  by rewrite delete_scan_miss.
Qed.

Lemma delete_Ok ht k b ht' :
  delete ht k = Ok (b, ht') →
  ∃ (i : nat) chain,
    getIndex ht k = Ok (Z.of_nat i) ∧ array ht !! i = Some chain ∧
    ((misses k chain ∧ b = false ∧ ht' = ht)
     ∨ (∃ pre e post, chain = pre ++ e :: post ∧ misses k pre ∧
          strcmp (key e) k = 0 ∧ b = true ∧ INT_MIN < size ht ∧
          ht' = mkTable (capacity ht) (<[i:=pre ++ post]> (array ht))
                  (size ht - 1))).
Proof.
  unfold delete.
  destruct (getIndex ht k) as [index|] eqn:Hi; [simpl|done].
  destruct (bucket_at ht index) as [chain|] eqn:Hc; [simpl|done].
  apply bucket_at_inv in Hc as [Hpos Hc]. intros H.
  exists (Z.to_nat index), chain. rewrite Z2Nat.id by done.
  split_and!; [done..|].
  destruct (scan_cases chain k) as [Hm|(pre & e & post & -> & Hpre & He)].
  - left. rewrite delete_scan_miss in H by done. by injection H as <- <-.
  - right. exists pre, e, post. rewrite delete_scan_hit in H by done.
    simpl in H. destruct (Z.ltb_spec INT_MIN (size ht)); [|done].
    by injection H as <- <-.
Qed.

(** Replacing the chain of one bucket by a chain in which the scan for [k]
    has the same result does not change [get] for [k]. *)
Lemma get_update ht (i : nat) chain chain' sz k :
  array ht !! i = Some chain →
  get_scan chain' k = get_scan chain k →
  get (mkTable (capacity ht) (<[i:=chain']> (array ht)) sz) k = get ht k.
Proof.
  intros Hc Hs. unfold get, getIndex. simpl.
  destruct (to_ulong (capacity ht) =? 0); [done|]. simpl.
  unfold bucket_at. simpl.
  destruct (Z.ltb_spec (to_int (hash k `mod` to_ulong (capacity ht))) 0); [done|].
  destruct (decide (i = Z.to_nat (to_int (hash k `mod` to_ulong (capacity ht)))))
    as [<-|Hne].
  - rewrite list_lookup_insert_eq by by eapply lookup_lt_Some.
    rewrite Hc. simpl. by rewrite Hs.
  - by rewrite list_lookup_insert_ne.
Qed.

(** ** The representation invariant *)

(** The nodes of the table around the chain of bucket [i]. *)
Lemma entries_split ht (i : nat) chain :
  array ht !! i = Some chain →
  ∃ front back,
    entries ht = front ++ chain ++ back ∧
    ∀ chain' sz,
      entries (mkTable (capacity ht) (<[i:=chain']> (array ht)) sz)
      = front ++ chain' ++ back.
Proof.
  intros Hc.
  exists (concat (take i (array ht))), (concat (drop (S i) (array ht))).
  unfold entries. simpl. split.
  - rewrite <- (take_drop_middle _ _ _ Hc) at 1.
    by rewrite concat_app, concat_cons.
  - intros chain' sz.
    rewrite insert_take_drop by by eapply lookup_lt_Some.
    by rewrite concat_app, concat_cons.
Qed.

Lemma elem_of_entries ht e :
  e ∈ entries ht ↔ ∃ (i : nat) chain, array ht !! i = Some chain ∧ e ∈ chain.
Proof.
  unfold entries. rewrite list_elem_of_In, in_concat. split.
  - intros (chain & Hin%list_elem_of_In & He%list_elem_of_In).
    apply list_elem_of_lookup in Hin as [i Hi]. by exists i, chain.
  - intros (i & chain & Hi & He). exists chain.
    rewrite <- !list_elem_of_In. split; [|done].
    by eapply list_elem_of_lookup_2.
Qed.

(** In a valid table a key that is stored is stored in the bucket that
    [getIndex] gives for it. *)
Lemma contains_bucket ht k (i : nat) chain :
  valid ht → contains ht k →
  getIndex ht k = Ok (Z.of_nat i) → array ht !! i = Some chain →
  ∃ pre e post, chain = pre ++ e :: post ∧ misses k pre ∧ strcmp (key e) k = 0.
Proof.
  intros Hv (e & (j & chain' & Hj & He)%elem_of_entries & Hk) Hi Hc.
  pose proof (valid_placement _ Hv _ _ _ Hj He) as Hp.
  rewrite (getIndex_strcmp _ _ _ Hk), Hi in Hp.
  injection Hp as Hp%Nat2Z.inj. subst j.
  rewrite Hc in Hj. injection Hj as <-.
  destruct (scan_cases chain k) as [Hm|Hhit]; [|exact Hhit].
  unfold misses in Hm. rewrite Forall_forall in Hm. destruct (Hm e He Hk).
Qed.

Lemma misses_not_contains ht k (i : nat) chain :
  valid ht → getIndex ht k = Ok (Z.of_nat i) → array ht !! i = Some chain →
  misses k chain → ¬ contains ht k.
Proof.
  intros Hv Hi Hc Hm Hk.
  destruct (contains_bucket _ _ _ _ Hv Hk Hi Hc) as (pre & e & post & -> & _ & He).
  unfold misses in Hm. rewrite Forall_app, Forall_cons in Hm.
  by destruct Hm as (_ & Hne & _).
Qed.

Lemma placement_update ht (i : nat) chain chain' sz :
  valid ht → array ht !! i = Some chain →
  (∀ e, e ∈ chain' → getIndex ht (key e) = Ok (Z.of_nat i)) →
  ∀ (j : nat) c e,
    <[i:=chain']> (array ht) !! j = Some c → e ∈ c →
    getIndex (mkTable (capacity ht) (<[i:=chain']> (array ht)) sz) (key e)
    = Ok (Z.of_nat j).
Proof.
  intros Hv Hc Hnew j c e Hj He.
  rewrite (getIndex_capacity _ ht) by done.
  destruct (decide (i = j)) as [<-|Hne].
  - rewrite list_lookup_insert_eq in Hj by by eapply lookup_lt_Some.
    injection Hj as <-. by apply Hnew.
  - rewrite list_lookup_insert_ne in Hj by done.
    by eapply valid_placement.
Qed.

Lemma createHashTable_Some c t ht t' :
  createHashTable c t = Ok (Some ht, t') →
  ht = mkTable c (empty_buckets c) 0.
Proof.
  unfold createHashTable, bind, malloc, ret.
  destruct t as [|[] [|[] t]]; simpl; try done. by intros [= <- <-].
Qed.

Lemma entries_empty_buckets c sz : entries (mkTable c (empty_buckets c) sz) = [].
Proof.
  unfold entries, empty_buckets. simpl.
  induction (Z.to_nat c) as [|n IH]; simpl; done.
Qed.

Lemma valid_create c :
  0 < c <= INT_MAX → valid (mkTable c (empty_buckets c) 0).
Proof.
  intros Hc. split; simpl.
  - done.
  - unfold empty_buckets. rewrite length_replicate. lia.
  - by rewrite entries_empty_buckets.
  - intros i chain e [-> _]%lookup_replicate He. by apply elem_of_nil in He.
  - unfold unique_keys. rewrite entries_empty_buckets. constructor.
Qed.

Lemma valid_insert ht k v t b ht' t' :
  valid ht → insert ht k v t = Ok ((b, ht'), t') → valid ht'.
Proof.
  intros Hv (i & chain & Hi & Hc & Hcases)%insert_Ok.
  destruct (entries_split _ _ _ Hc) as (front & back & Hent & Hent').
  destruct Hcases as [(chain' & Hs & _ & _ & ->)|[(Hm & _ & Hsz & ->)|(_ & _ & ->)]];
    [| |done].
  - (* the value of a node is replaced *)
    destruct (scan_cases chain k) as [Hm|(pre & e & post & -> & Hpre & He)];
      [by rewrite insert_scan_miss in Hs|].
    rewrite insert_scan_hit in Hs by done. injection Hs as <-.
    split; simpl.
    + apply Hv.
    + rewrite length_insert. apply Hv.
    + rewrite (valid_size _ Hv), Hent, Hent'. by rewrite !length_app.
    + eapply placement_update; [done..|].
      intros x Hx. rewrite elem_of_app, elem_of_cons in Hx.
      destruct Hx as [Hx|[->|Hx]]; simpl;
        apply (valid_placement _ Hv i (pre ++ e :: post)); try done;
        rewrite elem_of_app, elem_of_cons; tauto.
    + unfold unique_keys. rewrite Hent'.
      pose proof (valid_unique _ Hv) as Hu. unfold unique_keys in Hu.
      rewrite Hent in Hu. by rewrite !fmap_app, fmap_cons in Hu |- *.
  - (* a node is added at the head of the chain *)
    split; simpl.
    + apply Hv.
    + rewrite length_insert. apply Hv.
    + rewrite (valid_size _ Hv), Hent, Hent'. rewrite !length_app. simpl. lia.
    + eapply placement_update; [done..|].
      intros x [->|Hx]%elem_of_cons; simpl.
      * rewrite <- Hi. apply getIndex_strcmp. apply strcmp_c_str_l, strcmp_refl.
      * by apply (valid_placement _ Hv i chain).
    + unfold unique_keys. rewrite Hent'.
      assert (front ++ (mkPair (c_str k) v :: chain) ++ back
              ≡ₚ mkPair (c_str k) v :: entries ht) as ->.
      { rewrite Hent. simpl. symmetry. apply Permutation_middle. }
      rewrite fmap_cons. apply NoDup_cons. split; [|apply Hv].
      intros (y & Hy & Hin)%list_elem_of_fmap.
      eapply (misses_not_contains ht k); [done..|].
      exists y. split; [done|]. apply strcmp_c_str.
      unfold key_string in Hy. simpl in Hy. by rewrite <- Hy, c_str_idemp.
Qed.

Lemma valid_delete ht k b ht' :
  valid ht → delete ht k = Ok (b, ht') → valid ht'.
Proof.
  intros Hv (i & chain & Hi & Hc & Hcases)%delete_Ok.
  destruct (entries_split _ _ _ Hc) as (front & back & Hent & Hent').
  destruct Hcases as [(_ & _ & ->)|(pre & e & post & -> & Hpre & He & _ & Hsz & ->)];
    [done|].
  split; simpl.
  - apply Hv.
  - rewrite length_insert. apply Hv.
  - rewrite (valid_size _ Hv), Hent, Hent'. rewrite !length_app. simpl. lia.
  - eapply placement_update; [done..|].
    intros x Hx. apply (valid_placement _ Hv i (pre ++ e :: post)); [done|].
    rewrite elem_of_app, elem_of_cons. rewrite elem_of_app in Hx. tauto.
  - unfold unique_keys. rewrite Hent'.
    pose proof (valid_unique _ Hv) as Hu. unfold unique_keys in Hu.
    rewrite Hent in Hu. eapply sublist_NoDup; [exact Hu|].
    apply fmap_sublist, sublist_app; [done|].
    apply sublist_app; [|done]. apply sublist_app; [done|]. by apply sublist_cons.
Qed.

Lemma valid_step ht o t ht' t' :
  valid ht → step ht o t = Ok (ht', t') → valid ht'.
Proof.
  intros Hv. destruct o as [k v|k|k]; unfold step, bind, lift, ret.
  - destruct (insert ht k v t) as [[[b ht1] t1]|] eqn:E; [|done].
    intros [= <- <-]. by eapply valid_insert.
  - destruct (get ht k); [|done]. by intros [= <- <-].
  - destruct (delete ht k) as [[b ht1]|] eqn:E; [|done].
    intros [= <- <-]. by eapply valid_delete.
Qed.

Lemma valid_run ops ht t ht' t' :
  valid ht → run ops ht t = Ok (ht', t') → valid ht'.
Proof.
  revert ht t. induction ops as [|o ops IH]; intros ht t Hv; simpl.
  - unfold ret. by intros [= <- <-].
  - unfold bind. destruct (step ht o t) as [[ht1 t1]|] eqn:E; [|done].
    apply IH. by eapply valid_step.
Qed.

Lemma placedb_sound ht (i : nat) buckets :
  placedb ht i buckets = true →
  ∀ (j : nat) chain e,
    buckets !! j = Some chain → e ∈ chain →
    getIndex ht (key e) = Ok (Z.of_nat (i + j)).
Proof.
  revert i. induction buckets as [|c rest IH]; intros i H j chain e Hj He; [done|].
  simpl in H. apply andb_true_iff in H as [Hc Hrest].
  destruct j as [|j]; simpl in Hj.
  - injection Hj as ->. rewrite forallb_forall in Hc.
    specialize (Hc e (proj1 (list_elem_of_In _ _) He)).
    destruct (getIndex ht (key e)) as [index|]; [|done].
    apply Z.eqb_eq in Hc as ->. by rewrite Nat.add_0_r.
  - rewrite (IH (S i) Hrest j chain e Hj He). f_equal. lia.
Qed.

Lemma validb_sound ht : validb ht = true → valid ht.
Proof.
  unfold validb. rewrite !andb_true_iff.
  intros [[[[[H1 H2] H3] H4] H5] H6]. split.
  - apply Z.ltb_lt in H1. apply Z.leb_le in H2. done.
  - by apply Z.eqb_eq.
  - by apply Z.eqb_eq.
  - intros i chain e Hi He. by apply (placedb_sound ht 0 (array ht) H5 i chain e).
  - by apply bool_decide_eq_true in H6.
Qed.

Lemma containsb_sound ht k : containsb ht k = true → contains ht k.
Proof.
  unfold containsb. rewrite existsb_exists.
  intros (e & He%list_elem_of_In & Hk%Z.eqb_eq). by exists e.
Qed.

(** The sample tables are what the calls of the code build. *)
Example example_table_built :
  run [Insert (str "key1") 100; Insert (str "key2") 200; Insert (str "key3") 300]
    (mkTable 10 (empty_buckets 10) 0) (replicate 6 true)
  = Ok (example_table, []).
Proof. reflexivity. Qed.

Example crowded_table_built :
  run [Insert (str "a") 10; Insert (str "b") 20; Insert (str "c") 30;
       Insert (str "e") 50]
    (mkTable 2 (empty_buckets 2) 0) (replicate 8 true)
  = Ok (crowded_table, []).
Proof. reflexivity. Qed.

Example example_table_valid : validb example_table = true.
Proof. vm_compute. reflexivity. Qed.

Example crowded_table_valid : validb crowded_table = true.
Proof. vm_compute. reflexivity. Qed.

(** The rest of the usage example: [get] of key2, then [delete] of key1. *)
Example usage_example :
  get example_table (str "key2") = Ok 200 ∧
  ∃ ht', delete example_table (str "key1") = Ok (true, ht') ∧
         size example_table = 3 ∧ size ht' = 2 ∧
         get ht' (str "key1") = Ok NULL.
Proof. split; [reflexivity|]. eexists. repeat split. Qed.

(** * The claims *)

(** ** Hash function and bucket index *)

(** C7. [hash] is a function of the characters of the key alone (the bytes
    before the terminating NUL; nothing else is read and no state is kept, so
    equal inputs give equal results): it starts from 5381 and, for each
    character [c] in order, replaces the accumulator by accumulator * 33 + c
    reduced modulo 2^64, the width of [unsigned long], [c] being the value of
    the character as the code reads it into an [int]; the empty string
    hashes to 5381. *)
Theorem hash_is_djb2 (k : list byte) :
  hash k = djb2 (c_str k) ∧ hash (c_str k) = hash k ∧ hash (str "") = 5381 ∧
  ∀ acc b, djb2_step acc b = (acc * 33 + char b) mod 2 ^ ULONG_BITS.
Proof.
  split_and!; [apply hash_loop_fold|apply hash_c_str|reflexivity|done].
Qed.

(** C6. In a table with a positive capacity the bucket index of every key is
    [hash key mod capacity] and lies in [0, capacity); the bucket array having
    [capacity] buckets, the bucket that [insert], [get] and [delete] access
    exists and none of them runs out of bounds. *)
Theorem getIndex_in_bounds (ht : HashTable) (k : list byte) :
  0 < capacity ht <= INT_MAX →
  Z.of_nat (length (array ht)) = capacity ht →
  getIndex ht k = Ok (hash k mod capacity ht) ∧
  0 <= hash k mod capacity ht < capacity ht ∧
  (∃ chain, bucket_at ht (hash k mod capacity ht) = Ok chain) ∧
  (∀ v t, insert ht k v t ≠ Undefined OutOfBounds) ∧
  get ht k ≠ Undefined OutOfBounds ∧
  delete ht k ≠ Undefined OutOfBounds.
Proof.
  intros Hc Hlen.
  destruct (locate ht k Hc Hlen) as (i & chain & Hi & Hidx & Hchain & Hb).
  rewrite <- Hi.
  refine (conj _ (conj _ (conj _ (conj _ (conj _ _))))).
  - done.
  - rewrite Hi. apply Z.mod_pos_bound. lia.
  - by exists chain.
  - intros v t. unfold insert, bind, lift. rewrite Hidx, Hb.
    destruct (insert_scan chain k v); [done|].
    unfold malloc, strdup, bind, ret.
    destruct t as [|[] [|[] t]]; simpl; try done.
    by destruct (size ht <? INT_MAX).
  - by rewrite (get_at _ _ _ _ Hidx Hchain).
  - unfold delete. rewrite Hidx. simpl. rewrite Hb. simpl.
    destruct (delete_scan [] chain k); [|done].
    by destruct (INT_MIN <? size ht).
Qed.

Lemma getIndex_in_bounds_witness :
  (0 < capacity example_table <= INT_MAX ∧
   Z.of_nat (length (array example_table)) = capacity example_table) ∧
  (getIndex example_table (str "key2") = Ok (hash (str "key2") mod capacity example_table) ∧
   0 <= hash (str "key2") mod capacity example_table < capacity example_table ∧
   (∃ chain, bucket_at example_table (hash (str "key2") mod capacity example_table) = Ok chain) ∧
   (∀ v t, insert example_table (str "key2") v t ≠ Undefined OutOfBounds) ∧
   get example_table (str "key2") ≠ Undefined OutOfBounds ∧
   delete example_table (str "key2") ≠ Undefined OutOfBounds).
Proof.
  assert (0 < capacity example_table <= INT_MAX) as H1 by (vm_compute; split; congruence).
  assert (Z.of_nat (length (array example_table)) = capacity example_table) as H2
    by reflexivity.
  exact (conj (conj H1 H2) (getIndex_in_bounds example_table (str "key2") H1 H2)).
Defined.

(** ** Construction *)

(** C1, as the code has it.  [createHashTable] does not look at the capacity
    and has no invalid-argument result: for a capacity [c <= 0] too it
    returns [NULL] exactly when one of its two allocations fails, and
    otherwise a table with capacity [c], size 0 and no bucket. *)
Theorem createHashTable_unchecked (c : Z) (t : tape) :
  c <= 0 →
  ∃ t', createHashTable c t
        = Ok (if grants 2 t then Some (mkTable c [] 0) else None, t').
Proof.
  intros Hc. unfold createHashTable, bind, malloc, ret, empty_buckets.
  replace (Z.to_nat c) with 0%nat by lia.
  destruct t as [|[] [|[] t]]; simpl; eauto.
Qed.

Lemma createHashTable_unchecked_witness :
  0 <= 0 ∧
  ∃ t', createHashTable 0 [true; true]
        = Ok (if grants 2 [true; true] then Some (mkTable 0 [] 0) else None, t').
Proof.
  assert (0 <= 0) as H by lia.
  exact (conj H (createHashTable_unchecked 0 [true; true] H)).
Defined.

(** C1 fails as stated: with both allocations granted, capacity 0 yields a
    table, not an error. *)
Lemma createHashTable_zero_capacity :
  createHashTable 0 [true; true] = Ok (Some (mkTable 0 [] 0), []).
Proof. reflexivity. Qed.

(** ** Insert and lookup *)

Lemma get_insert ht k v t ht1 t1 :
  insert ht k v t = Ok ((true, ht1), t1) → get ht1 k = Ok v.
Proof.
  intros (i & chain & Hi & Hc & Hcases)%insert_Ok.
  pose proof (lookup_lt_Some _ _ _ Hc) as Hlt.
  destruct Hcases as [(chain' & Hs & _ & _ & ->)|[(Hm & _ & _ & ->)|(_ & [=] & _)]].
  - destruct (scan_cases chain k) as [Hm|(pre & e & post & -> & Hpre & He)];
      [by rewrite insert_scan_miss in Hs|].
    rewrite insert_scan_hit in Hs by done. injection Hs as <-.
    rewrite (get_at _ k i (pre ++ mkPair (key e) v :: post)).
    + by rewrite get_scan_hit.
    + by rewrite (getIndex_capacity _ ht).
    + simpl. by apply list_lookup_insert_eq.
  - rewrite (get_at _ k i (mkPair (c_str k) v :: chain)).
    + simpl. by rewrite (proj2 (strcmp_c_str_l k k) (strcmp_refl k)).
    + by rewrite (getIndex_capacity _ ht).
    + simpl. by apply list_lookup_insert_eq.
Qed.

Lemma get_insert_other ht k k' v t b ht' t' :
  strcmp k' k ≠ 0 → insert ht k' v t = Ok ((b, ht'), t') → get ht' k = get ht k.
Proof.
  intros Hne (i & chain & Hi & Hc & Hcases)%insert_Ok.
  destruct Hcases as [(chain' & Hs & _ & _ & ->)|[(Hm & _ & _ & ->)|(_ & _ & ->)]];
    [| |done].
  - eapply get_update; [done|]. by eapply get_scan_insert_scan_other.
  - eapply get_update; [done|]. simpl.
    destruct (Z.eqb_spec (strcmp (c_str k') k) 0) as [Heq|]; [|done].
    destruct Hne. by apply strcmp_c_str_l.
Qed.

Lemma get_delete_other ht k k' b ht' :
  strcmp k' k ≠ 0 → delete ht k' = Ok (b, ht') → get ht' k = get ht k.
Proof.
  intros Hne (i & chain & Hi & Hc & Hcases)%delete_Ok.
  destruct Hcases as [(_ & _ & ->)|(pre & e & post & -> & Hpre & He & _ & _ & ->)];
    [done|].
  eapply get_update; [done|].
  eapply get_scan_delete_scan_other; [done|]. by apply delete_scan_hit.
Qed.

Lemma get_step_other ht k o t ht' t' :
  touches k o = false → step ht o t = Ok (ht', t') → get ht' k = get ht k.
Proof.
  destruct o as [k' v|k'|k']; simpl; intros Ht; unfold bind, lift, ret.
  - destruct (insert ht k' v t) as [[[b ht1] t1]|] eqn:E; [|done].
    intros [= <- <-]. simpl. eapply get_insert_other; [|done]. by apply Z.eqb_neq.
  - destruct (get ht k'); [|done]. by intros [= <- <-].
  - destruct (delete ht k') as [[b ht1]|] eqn:E; [|done].
    intros [= <- <-]. simpl. eapply get_delete_other; [|done]. by apply Z.eqb_neq.
Qed.

Lemma get_run_other ops ht k t ht' t' :
  Forall (λ o, touches k o = false) ops →
  run ops ht t = Ok (ht', t') → get ht' k = get ht k.
Proof.
  intros Hops. revert ht t.
  induction Hops as [|o ops Ho _ IH]; intros ht t; simpl.
  - unfold ret. by intros [= <- <-].
  - unfold bind. destruct (step ht o t) as [[ht1 t1]|] eqn:E; [|done].
    intros Hrun. rewrite (IH _ _ Hrun). by eapply get_step_other.
Qed.

(** C2. After [insert(table, k, v)] has returned [true], and whatever calls
    were made on the table before, [get(table, k)] returns [v] after any
    sequence of further calls among which none inserts or deletes [k]. *)
Theorem get_after_insert (ht : HashTable) (k : list byte) (v : ptr) (t : tape)
    (ht1 : HashTable) (t1 : tape) (others : list op)
    (ht2 : HashTable) (t2 : tape) :
  insert ht k v t = Ok ((true, ht1), t1) →
  Forall (λ o, touches k o = false) others →
  run others ht1 t1 = Ok (ht2, t2) →
  get ht2 k = Ok v.
Proof.
  intros Hins Hothers Hrun.
  rewrite (get_run_other _ _ _ _ _ _ Hothers Hrun). by eapply get_insert.
Qed.

Lemma get_after_insert_witness :
  (insert crowded_table (str "c") 33 [true; true; true; true; true]
   = Ok ((true, mkTable 2 [ [mkPair (str "e") 50; mkPair (str "c") 33;
                              mkPair (str "a") 10];
                            [mkPair (str "b") 20] ] 4),
         [true; true; true; true; true]) ∧
   Forall (λ o, touches (str "c") o = false)
     [Insert (str "g") 70; Insert (str "a") 11; Delete (str "e"); Get (str "c");
      Insert (str "b") 21] ∧
   run [Insert (str "g") 70; Insert (str "a") 11; Delete (str "e"); Get (str "c");
        Insert (str "b") 21]
     (mkTable 2 [ [mkPair (str "e") 50; mkPair (str "c") 33; mkPair (str "a") 10];
                  [mkPair (str "b") 20] ] 4)
     [true; true; true; true; true]
   = Ok (mkTable 2 [ [mkPair (str "g") 70; mkPair (str "c") 33; mkPair (str "a") 11];
                     [mkPair (str "b") 21] ] 4,
         [true; true; true])) ∧
  get (mkTable 2 [ [mkPair (str "g") 70; mkPair (str "c") 33; mkPair (str "a") 11];
                   [mkPair (str "b") 21] ] 4) (str "c") = Ok 33.
Proof.
  split; [split_and!; [reflexivity|repeat constructor|reflexivity]|].
  eapply (get_after_insert crowded_table (str "c") 33 [true; true; true; true; true]
           _ _ [Insert (str "g") 70; Insert (str "a") 11; Delete (str "e");
                Get (str "c"); Insert (str "b") 21] _ [true; true; true]);
    [reflexivity|repeat constructor|reflexivity].
Defined.

(** In a valid table the chain of a stored key splits at its node. *)
Lemma contains_split ht k :
  valid ht → contains ht k →
  ∃ (i : nat) pre e post,
    getIndex ht k = Ok (Z.of_nat i) ∧
    array ht !! i = Some (pre ++ e :: post) ∧
    misses k pre ∧ strcmp (key e) k = 0 ∧ misses k post.
Proof.
  intros Hv Hk.
  destruct (locate ht k (valid_capacity _ Hv) (valid_array _ Hv))
    as (i & chain & _ & Hi & Hc & _).
  destruct (contains_bucket _ _ _ _ Hv Hk Hi Hc) as (pre & e & post & -> & Hpre & He).
  exists i, pre, e, post. split_and!; try done.
  (* no second node with this key: the key strings of the table are distinct *)
  destruct (entries_split _ _ _ Hc) as (front & back & Hent & _).
  pose proof (valid_unique _ Hv) as Hu. unfold unique_keys in Hu.
  rewrite Hent, !fmap_app, fmap_cons in Hu.
  apply NoDup_app in Hu as (_ & _ & Hu). apply NoDup_app in Hu as (Hu & _ & _).
  apply NoDup_app in Hu as (_ & _ & Hu). apply NoDup_cons in Hu as [Hu _].
  apply Forall_forall. intros y Hy Hyk. apply Hu.
  apply list_elem_of_fmap. exists y. split; [|done].
  unfold key_string. apply strcmp_c_str. by eapply strcmp_trans, strcmp_sym.
Qed.

(** C3. When the table holds the key [k], [insert(table, k, v2)] replaces
    the value of its node in place: the node keeps its key and its position
    in the chain, the other nodes and buckets are as before, the call
    returns [true] without allocating, the size is unchanged, and [get] then
    returns [v2]. *)
Theorem insert_existing (ht : HashTable) (k : list byte) :
  valid ht → contains ht k →
  ∃ (i : nat) pre e post,
    getIndex ht k = Ok (Z.of_nat i) ∧
    array ht !! i = Some (pre ++ e :: post) ∧
    misses k pre ∧ strcmp (key e) k = 0 ∧
    ∀ v2 t, ∃ ht',
      insert ht k v2 t = Ok ((true, ht'), t) ∧
      array ht' = <[i:=pre ++ mkPair (key e) v2 :: post]> (array ht) ∧
      size ht' = size ht ∧ capacity ht' = capacity ht ∧
      get ht' k = Ok v2.
Proof.
  intros Hv Hk.
  destruct (contains_split ht k Hv Hk) as (i & pre & e & post & Hi & Hc & Hpre & He & _).
  exists i, pre, e, post. split_and!; try done.
  intros v2 t. eexists. split.
  - eapply insert_found; [done..|]. by apply insert_scan_hit.
  - split_and!; try done. eapply get_insert.
    eapply (insert_found _ _ v2 t); [done..|]. by apply insert_scan_hit.
Qed.

Lemma insert_existing_witness :
  (valid crowded_table ∧ contains crowded_table (str "c")) ∧
  ∃ (i : nat) pre e post,
    getIndex crowded_table (str "c") = Ok (Z.of_nat i) ∧
    array crowded_table !! i = Some (pre ++ e :: post) ∧
    misses (str "c") pre ∧ strcmp (key e) (str "c") = 0 ∧
    ∀ v2 t, ∃ ht',
      insert crowded_table (str "c") v2 t = Ok ((true, ht'), t) ∧
      array ht' = <[i:=pre ++ mkPair (key e) v2 :: post]> (array crowded_table) ∧
      size ht' = size crowded_table ∧ capacity ht' = capacity crowded_table ∧
      get ht' (str "c") = Ok v2.
Proof.
  assert (valid crowded_table) as Hv by (apply validb_sound; reflexivity).
  assert (contains crowded_table (str "c")) as Hk
    by (apply containsb_sound; reflexivity).
  exact (conj (conj Hv Hk) (insert_existing crowded_table (str "c") Hv Hk)).
Defined.

(** ** Delete *)

(** C4. When the table holds the key [k], [delete(table, k)] returns [true],
    the size is one less than before the call, and [get(table, k)] then
    returns the not-found result, [NULL]; the key is no longer stored. *)
Theorem delete_existing (ht : HashTable) (k : list byte) :
  valid ht → contains ht k →
  ∃ ht', delete ht k = Ok (true, ht') ∧
         size ht' = size ht - 1 ∧
         get ht' k = Ok NULL ∧
         ¬ contains ht' k.
Proof.
  intros Hv Hk.
  destruct (contains_split ht k Hv Hk)
    as (i & pre & e & post & Hi & Hc & Hpre & He & Hpost).
  assert (INT_MIN < size ht) as Hsz.
  { rewrite (valid_size _ Hv). unfold INT_MIN. lia. }
  pose proof (delete_found _ _ _ _ _ _ Hi Hc Hpre He Hsz) as Hdel.
  pose proof (valid_delete _ _ _ _ Hv Hdel) as Hv'.
  eexists. split; [exact Hdel|]. simpl.
  assert (getIndex (mkTable (capacity ht) (<[i:=pre ++ post]> (array ht)) (size ht - 1)) k
          = Ok (Z.of_nat i)) as Hi' by by rewrite (getIndex_capacity _ ht).
  assert (<[i:=pre ++ post]> (array ht) !! i = Some (pre ++ post)) as Hc'
    by (apply list_lookup_insert_eq; by eapply lookup_lt_Some).
  assert (misses k (pre ++ post)) as Hm by by apply Forall_app.
  split_and!; [done| |].
  - rewrite (get_at _ _ _ _ Hi' Hc'). by rewrite get_scan_miss.
  - by eapply misses_not_contains.
Qed.

Lemma delete_existing_witness :
  (valid crowded_table ∧ contains crowded_table (str "c")) ∧
  ∃ ht', delete crowded_table (str "c") = Ok (true, ht') ∧
         size ht' = size crowded_table - 1 ∧
         get ht' (str "c") = Ok NULL ∧
         ¬ contains ht' (str "c").
Proof.
  assert (valid crowded_table) as Hv by (apply validb_sound; reflexivity).
  assert (contains crowded_table (str "c")) as Hk
    by (apply containsb_sound; reflexivity).
  exact (conj (conj Hv Hk) (delete_existing crowded_table (str "c") Hv Hk)).
Defined.

(** C8. When no node of the table has the key [k], [delete(table, k)]
    returns [false] and the table after the call is the table before it:
    same size, same buckets, same nodes. *)
Theorem delete_absent (ht : HashTable) (k : list byte) :
  0 < capacity ht <= INT_MAX →
  Z.of_nat (length (array ht)) = capacity ht →
  ¬ contains ht k →
  delete ht k = Ok (false, ht).
Proof.
  intros Hcap Hlen Hk.
  destruct (locate ht k Hcap Hlen) as (i & chain & _ & Hi & Hc & _).
  eapply delete_missed; [done..|].
  apply Forall_forall. intros e He Hek. apply Hk. exists e. split; [|done].
  apply elem_of_entries. by exists i, chain.
Qed.

Lemma delete_absent_witness :
  (0 < capacity crowded_table <= INT_MAX ∧
   Z.of_nat (length (array crowded_table)) = capacity crowded_table ∧
   ¬ contains crowded_table (str "g")) ∧
  delete crowded_table (str "g") = Ok (false, crowded_table).
Proof.
  assert (0 < capacity crowded_table <= INT_MAX) as H1
    by (vm_compute; split; congruence).
  assert (Z.of_nat (length (array crowded_table)) = capacity crowded_table) as H2
    by reflexivity.
  assert (¬ contains crowded_table (str "g")) as H3.
  { intros (e & He & Hk). vm_compute in He.
    repeat (apply elem_of_cons in He as [->|He]; [by vm_compute in Hk|]).
    by apply elem_of_nil in He. }
  exact (conj (conj H1 (conj H2 H3)) (delete_absent crowded_table (str "g") H1 H2 H3)).
Defined.

(** C10. When the table holds the key [k], [delete(table, k)] takes the
    node of [k] out of its chain and nothing else: the nodes before it and
    the nodes after it stay in the chain, in the order they had, and every
    other bucket is as before. *)
Theorem delete_frame (ht : HashTable) (k : list byte) :
  valid ht → contains ht k →
  ∃ (i : nat) pre e post ht',
    getIndex ht k = Ok (Z.of_nat i) ∧
    array ht !! i = Some (pre ++ e :: post) ∧
    strcmp (key e) k = 0 ∧
    delete ht k = Ok (true, ht') ∧
    array ht' !! i = Some (pre ++ post) ∧
    (∀ j : nat, j ≠ i → array ht' !! j = array ht !! j) ∧
    length (array ht') = length (array ht).
Proof.
  intros Hv Hk.
  destruct (contains_split ht k Hv Hk)
    as (i & pre & e & post & Hi & Hc & Hpre & He & _).
  assert (INT_MIN < size ht) as Hsz.
  { rewrite (valid_size _ Hv). unfold INT_MIN. lia. }
  exists i, pre, e, post,
    (mkTable (capacity ht) (<[i:=pre ++ post]> (array ht)) (size ht - 1)).
  split_and!; try done.
  - by apply (delete_found ht k i pre e post).
  - simpl. apply list_lookup_insert_eq. by eapply lookup_lt_Some.
  - intros j Hj. simpl. by apply list_lookup_insert_ne.
  - simpl. apply length_insert.
Qed.

Lemma delete_frame_witness :
  (valid crowded_table ∧ contains crowded_table (str "c")) ∧
  ∃ (i : nat) pre e post ht',
    getIndex crowded_table (str "c") = Ok (Z.of_nat i) ∧
    array crowded_table !! i = Some (pre ++ e :: post) ∧
    strcmp (key e) (str "c") = 0 ∧
    delete crowded_table (str "c") = Ok (true, ht') ∧
    array ht' !! i = Some (pre ++ post) ∧
    (∀ j : nat, j ≠ i → array ht' !! j = array crowded_table !! j) ∧
    length (array ht') = length (array crowded_table).
Proof.
  assert (valid crowded_table) as Hv by (apply validb_sound; reflexivity).
  assert (contains crowded_table (str "c")) as Hk
    by (apply containsb_sound; reflexivity).
  exact (conj (conj Hv Hk) (delete_frame crowded_table (str "c") Hv Hk)).
Defined.

(** ** Lookup *)

Lemma contains_insert ht k v t ht' t' :
  insert ht k v t = Ok ((true, ht'), t') → contains ht' k.
Proof.
  intros (i & chain & Hi & Hc & Hcases)%insert_Ok.
  pose proof (lookup_lt_Some _ _ _ Hc) as Hlt.
  destruct Hcases as [(chain' & Hs & _ & _ & ->)|[(Hm & _ & _ & ->)|(_ & [=] & _)]].
  - destruct (scan_cases chain k) as [Hm|(pre & e & post & -> & Hpre & He)];
      [by rewrite insert_scan_miss in Hs|].
    rewrite insert_scan_hit in Hs by done. injection Hs as <-.
    exists (mkPair (key e) v). split; [|done].
    apply elem_of_entries. exists i, (pre ++ mkPair (key e) v :: post). simpl.
    split; [by apply list_lookup_insert_eq|].
    rewrite elem_of_app, elem_of_cons. by right; left.
  - exists (mkPair (c_str k) v). split; [|by apply strcmp_c_str_l, strcmp_refl].
    apply elem_of_entries. exists i, (mkPair (c_str k) v :: chain). simpl.
    split; [by apply list_lookup_insert_eq|]. by apply elem_of_cons; left.
Qed.

(** C9. [get] answers not-found by [NULL] and a match by the stored value
    pointer, so a key stored with the value [NULL] gets the answer of a key
    that is not stored. *)
Theorem get_NULL_ambiguous (ht : HashTable) (k : list byte) :
  valid ht →
  (¬ contains ht k → get ht k = Ok NULL) ∧
  (∀ e, e ∈ entries ht → strcmp (key e) k = 0 → get ht k = Ok (value e)) ∧
  (∀ t ht' t', insert ht k NULL t = Ok ((true, ht'), t') →
     contains ht' k ∧ get ht' k = Ok NULL).
Proof.
  intros Hv.
  destruct (locate ht k (valid_capacity _ Hv) (valid_array _ Hv))
    as (i & chain & _ & Hi & Hc & _).
  split_and!.
  - intros Hk. rewrite (get_at _ _ _ _ Hi Hc). f_equal. apply get_scan_miss.
    apply Forall_forall. intros e He Hek. apply Hk. exists e. split; [|done].
    apply elem_of_entries. by exists i, chain.
  - intros e He Hek.
    destruct (contains_split ht k Hv) as (i' & pre & e0 & post & Hi' & Hc' & Hpre & He0 & Hpost);
      [by exists e|].
    rewrite (get_at _ _ _ _ Hi' Hc'), get_scan_hit by done. do 2 f_equal.
    apply elem_of_entries in He as (j & chain' & Hj & He).
    pose proof (valid_placement _ Hv _ _ _ Hj He) as Hp.
    rewrite (getIndex_strcmp _ _ _ Hek), Hi' in Hp.
    injection Hp as Hp%Nat2Z.inj. subst j.
    rewrite Hc' in Hj. injection Hj as <-.
    unfold misses in Hpre, Hpost. rewrite Forall_forall in Hpre, Hpost.
    rewrite elem_of_app, elem_of_cons in He.
    destruct He as [He|[->|He]]; [by destruct (Hpre e He)|done|by destruct (Hpost e He)].
  - intros t ht' t' Hins. split; [by eapply contains_insert|by eapply get_insert].
Qed.

Lemma get_NULL_ambiguous_witness :
  valid crowded_table ∧
  ((¬ contains crowded_table (str "g") → get crowded_table (str "g") = Ok NULL) ∧
   (∀ e, e ∈ entries crowded_table → strcmp (key e) (str "g") = 0 →
      get crowded_table (str "g") = Ok (value e)) ∧
   (∀ t ht' t', insert crowded_table (str "g") NULL t = Ok ((true, ht'), t') →
      contains ht' (str "g") ∧ get ht' (str "g") = Ok NULL)).
Proof.
  assert (valid crowded_table) as Hv by (apply validb_sound; reflexivity).
  exact (conj Hv (get_NULL_ambiguous crowded_table (str "g") Hv)).
Defined.

(** The two answers of C9 on the sample table: "g" is not stored, and after
    [insert(table, "g", NULL)] it is, with the same answer from [get]. *)
Example get_NULL_twice :
  get crowded_table (str "g") = Ok NULL ∧
  ∃ ht', insert crowded_table (str "g") NULL [true; true] = Ok ((true, ht'), []) ∧
         containsb ht' (str "g") = true ∧ containsb crowded_table (str "g") = false ∧
         get ht' (str "g") = Ok NULL.
Proof. split; [reflexivity|]. eexists. split_and!; reflexivity. Qed.

(** ** Uniqueness of keys *)

Lemma step_no_bucket ht o t :
  array ht = [] → ∃ u, step ht o t = Undefined u.
Proof.
  intros Ha.
  assert (∀ k index, getIndex ht k = Ok index → ∃ u, bucket_at ht index = Undefined u)
    as Hb.
  { intros k index _. unfold bucket_at. rewrite Ha.
    destruct (index <? 0); eauto. }
  destruct o as [k v|k|k]; unfold step, insert, get, delete, bind, lift; simpl;
    (destruct (getIndex ht k) as [index|] eqn:Hi; simpl; [|by eauto]);
    destruct (Hb k index Hi) as [u ->]; simpl; eauto.
Qed.

(** C5. In every table reached from [createHashTable] through calls of
    [insert], [get] and [delete], each key string is the key of at most one
    node of the whole table; when the capacity is positive the table also
    satisfies the whole representation invariant, which every call
    preserves. *)
Theorem unique_keys_invariant (c : Z) (ops : list op) (t : tape)
    (ht : HashTable) (t1 : tape) (ht' : HashTable) (t2 : tape) :
  INT_MIN <= c <= INT_MAX →
  createHashTable c t = Ok (Some ht, t1) →
  run ops ht t1 = Ok (ht', t2) →
  unique_keys ht' ∧ (0 < c → valid ht').
Proof.
  intros Hc ->%createHashTable_Some Hrun.
  destruct (Z.lt_ge_cases 0 c) as [Hpos|Hneg].
  - assert (valid ht') as Hv.
    { eapply valid_run; [|done]. apply valid_create. lia. }
    split; [apply Hv|done].
  - split; [|lia].
    destruct ops as [|o ops]; simpl in Hrun.
    + injection Hrun as <- <-. unfold unique_keys.
      rewrite entries_empty_buckets. constructor.
    + unfold bind in Hrun.
      destruct (step_no_bucket (mkTable c (empty_buckets c) 0) o t1) as [u Hu].
      { unfold empty_buckets. simpl. by replace (Z.to_nat c) with 0%nat by lia. }
      by rewrite Hu in Hrun.
Qed.

Lemma unique_keys_invariant_witness :
  (INT_MIN <= 2 <= INT_MAX ∧
   createHashTable 2 (replicate 10 true)
     = Ok (Some (mkTable 2 (empty_buckets 2) 0), replicate 8 true) ∧
   run [Insert (str "a") 10; Insert (str "b") 20; Insert (str "c") 30;
        Insert (str "a") 11; Get (str "c"); Insert (str "e") 50;
        Delete (str "c"); Delete (str "x")]
     (mkTable 2 (empty_buckets 2) 0) (replicate 8 true)
   = Ok (mkTable 2 [ [mkPair (str "e") 50; mkPair (str "a") 11];
                     [mkPair (str "b") 20] ] 3, [])) ∧
  unique_keys (mkTable 2 [ [mkPair (str "e") 50; mkPair (str "a") 11];
                           [mkPair (str "b") 20] ] 3) ∧
  (0 < 2 → valid (mkTable 2 [ [mkPair (str "e") 50; mkPair (str "a") 11];
                              [mkPair (str "b") 20] ] 3)).
Proof.
  assert (INT_MIN <= 2 <= INT_MAX) as H1 by (vm_compute; split; congruence).
  split; [split; [exact H1|split; reflexivity]|].
  eapply (unique_keys_invariant 2
            [Insert (str "a") 10; Insert (str "b") 20; Insert (str "c") 30;
             Insert (str "a") 11; Get (str "c"); Insert (str "e") 50;
             Delete (str "c"); Delete (str "x")]
            (replicate 10 true) _ (replicate 8 true) _ []);
    [exact H1|reflexivity|reflexivity].
Defined.

(** * Further properties of the calls *)

(** ** Insert of a new key *)

Lemma insert_absent ht k v t (i : nat) chain :
  getIndex ht k = Ok (Z.of_nat i) → array ht !! i = Some chain →
  misses k chain → size ht < INT_MAX →
  insert ht k v (true :: true :: t)
  = Ok ((true, mkTable (capacity ht) (<[i:=mkPair (c_str k) v :: chain]> (array ht))
                 (size ht + 1)), t).
Proof.
  intros Hi Hc Hm Hsz. unfold insert, bind, lift. rewrite Hi.
  rewrite (bucket_at_lookup _ _ _ Hc), (insert_scan_miss _ _ _ Hm). simpl.
  destruct (Z.ltb_spec (size ht) INT_MAX); [|lia]. by rewrite Nat2Z.id.
Qed.

Lemma absent_misses ht k (i : nat) chain :
  ¬ contains ht k → array ht !! i = Some chain → misses k chain.
Proof.
  intros Hk Hc. apply Forall_forall. intros e He Hek. apply Hk.
  exists e. split; [|done]. apply elem_of_entries. by exists i, chain.
Qed.

(** X1. A key that is not stored, with both allocations granted and the size
    below [INT_MAX]: [insert] returns [true]; the new node, holding a copy of
    the characters of the key and the value, is the head of the chain of its
    bucket, in front of the nodes that were there; no other bucket changes,
    the size grows by one and the table is valid again. *)
Theorem insert_new (ht : HashTable) (k : list byte) (v : ptr) (t : tape) :
  valid ht → ¬ contains ht k → size ht < INT_MAX →
  ∃ (i : nat) chain ht',
    getIndex ht k = Ok (Z.of_nat i) ∧ array ht !! i = Some chain ∧
    insert ht k v (true :: true :: t) = Ok ((true, ht'), t) ∧
    array ht' !! i = Some (mkPair (c_str k) v :: chain) ∧
    (∀ j : nat, j ≠ i → array ht' !! j = array ht !! j) ∧
    size ht' = size ht + 1 ∧ capacity ht' = capacity ht ∧ valid ht'.
Proof.
  intros Hv Hk Hsz.
  destruct (locate ht k (valid_capacity _ Hv) (valid_array _ Hv))
    as (i & chain & _ & Hi & Hc & _).
  pose proof (absent_misses _ _ _ _ Hk Hc) as Hm.
  pose proof (insert_absent ht k v t i chain Hi Hc Hm Hsz) as Hins.
  exists i, chain. eexists. split_and!; [done|done|exact Hins|simpl..|].
  - apply list_lookup_insert_eq. by eapply lookup_lt_Some.
  - intros j Hj. by apply list_lookup_insert_ne.
  - done.
  - done.
  - by eapply valid_insert.
Qed.

Lemma insert_new_witness :
  (valid crowded_table ∧ ¬ contains crowded_table (str "g") ∧
   size crowded_table < INT_MAX) ∧
  ∃ (i : nat) chain ht',
    getIndex crowded_table (str "g") = Ok (Z.of_nat i) ∧
    array crowded_table !! i = Some chain ∧
    insert crowded_table (str "g") 70 [true; true] = Ok ((true, ht'), []) ∧
    array ht' !! i = Some (mkPair (c_str (str "g")) 70 :: chain) ∧
    (∀ j : nat, j ≠ i → array ht' !! j = array crowded_table !! j) ∧
    size ht' = size crowded_table + 1 ∧ capacity ht' = capacity crowded_table ∧
    valid ht'.
Proof.
  assert (valid crowded_table) as Hv by (apply validb_sound; reflexivity).
  assert (¬ contains crowded_table (str "g")) as Hk.
  { intros (e & He & Hk). vm_compute in He.
    repeat (apply elem_of_cons in He as [->|He]; [by vm_compute in Hk|]).
    by apply elem_of_nil in He. }
  assert (size crowded_table < INT_MAX) as Hsz by reflexivity.
  exact (conj (conj Hv (conj Hk Hsz))
           (insert_new crowded_table (str "g") 70 [] Hv Hk Hsz)).
Defined.

(** X2. [insert] returns [false] only when the key is in no node of its
    bucket and one of the two allocations it then asks for is refused; the
    table is then exactly the table before the call. *)
Theorem insert_false_unchanged (ht : HashTable) (k : list byte) (v : ptr)
    (t : tape) (ht' : HashTable) (t' : tape) :
  insert ht k v t = Ok ((false, ht'), t') →
  ht' = ht ∧ grants 2 t = false ∧
  ∃ (i : nat) chain,
    getIndex ht k = Ok (Z.of_nat i) ∧ array ht !! i = Some chain ∧ misses k chain.
Proof.
  intros H.
  destruct (insert_Ok _ _ _ _ _ _ _ H) as (i & chain & Hi & Hc & Hcases).
  destruct Hcases as [(chain' & _ & [=] & _)|[(_ & [=] & _)|(Hm & _ & ->)]].
  split_and!; [done| |by exists i, chain].
  unfold insert, bind, lift in H. rewrite Hi, (bucket_at_lookup _ _ _ Hc) in H.
  rewrite (insert_scan_miss _ _ _ Hm) in H.
  unfold malloc, strdup, bind, ret in H.
  destruct t as [|[] [|[] t]]; simpl in H; try done.
  by destruct (size ht <? INT_MAX).
Qed.

Lemma insert_false_unchanged_witness :
  insert crowded_table (str "g") 70 [true; false; true]
    = Ok ((false, crowded_table), [true]) ∧
  (crowded_table = crowded_table ∧ grants 2 [true; false; true] = false ∧
   ∃ (i : nat) chain,
     getIndex crowded_table (str "g") = Ok (Z.of_nat i) ∧
     array crowded_table !! i = Some chain ∧ misses (str "g") chain).
Proof.
  assert (insert crowded_table (str "g") 70 [true; false; true]
          = Ok ((false, crowded_table), [true])) as H by reflexivity.
  exact (conj H (insert_false_unchanged _ _ _ _ _ _ H)).
Defined.

(** X3. Insert, then delete: when [insert] has added a key that was not
    stored, [delete] of that key returns [true] and gives back the table as it
    was before the insert, bucket for bucket and with the same size. *)
Theorem insert_delete_roundtrip (ht : HashTable) (k : list byte) (v : ptr)
    (t : tape) (ht1 : HashTable) (t1 : tape) :
  valid ht → ¬ contains ht k →
  insert ht k v t = Ok ((true, ht1), t1) →
  delete ht1 k = Ok (true, ht).
Proof.
  intros Hv Hk (i & chain & Hi & Hc & Hcases)%insert_Ok.
  pose proof (absent_misses _ _ _ _ Hk Hc) as Hm.
  pose proof (lookup_lt_Some _ _ _ Hc) as Hlt.
  destruct Hcases as [(chain' & Hs & _)|[(_ & _ & Hsz & ->)|(_ & [=] & _)]].
  { by rewrite insert_scan_miss in Hs. }
  rewrite (delete_found _ k i [] (mkPair (c_str k) v) chain); simpl.
  - rewrite list_insert_insert_eq, list_insert_id by done.
    destruct ht as [c a s]. simpl. do 3 f_equal. lia.
  - by rewrite (getIndex_capacity _ ht).
  - by apply list_lookup_insert_eq.
  - constructor.
  - apply strcmp_c_str_l, strcmp_refl.
  - rewrite (valid_size _ Hv). unfold INT_MIN. lia.
Qed.

Lemma insert_delete_roundtrip_witness :
  (valid crowded_table ∧ ¬ contains crowded_table (str "g") ∧
   insert crowded_table (str "g") 70 [true; true]
   = Ok ((true, mkTable 2 [ [mkPair (str "g") 70; mkPair (str "e") 50;
                              mkPair (str "c") 30; mkPair (str "a") 10];
                            [mkPair (str "b") 20] ] 5), [])) ∧
  delete (mkTable 2 [ [mkPair (str "g") 70; mkPair (str "e") 50;
                       mkPair (str "c") 30; mkPair (str "a") 10];
                     [mkPair (str "b") 20] ] 5) (str "g")
  = Ok (true, crowded_table).
Proof.
  assert (valid crowded_table) as Hv by (apply validb_sound; reflexivity).
  assert (¬ contains crowded_table (str "g")) as Hk.
  { intros (e & He & Hk). vm_compute in He.
    repeat (apply elem_of_cons in He as [->|He]; [by vm_compute in Hk|]).
    by apply elem_of_nil in He. }
  assert (insert crowded_table (str "g") 70 [true; true]
          = Ok ((true, mkTable 2 [ [mkPair (str "g") 70; mkPair (str "e") 50;
                                     mkPair (str "c") 30; mkPair (str "a") 10];
                                   [mkPair (str "b") 20] ] 5), [])) as Hi
    by reflexivity.
  exact (conj (conj Hv (conj Hk Hi))
           (insert_delete_roundtrip _ _ _ _ _ _ Hv Hk Hi)).
Defined.

(** X4. The last insert wins: after [insert(k, v1)] has returned [true], a
    second [insert(k, v2)] returns [true] without allocating, and the table
    is the one a single [insert(k, v2)] would have built from the start. *)
Theorem insert_twice (ht : HashTable) (k : list byte) (v1 v2 : ptr)
    (t : tape) (ht1 : HashTable) (t1 : tape) :
  insert ht k v1 t = Ok ((true, ht1), t1) →
  ∃ ht2, insert ht1 k v2 t1 = Ok ((true, ht2), t1) ∧
         insert ht k v2 t = Ok ((true, ht2), t1).
Proof.
  intros H.
  destruct (insert_Ok _ _ _ _ _ _ _ H) as (i & chain & Hi & Hc & Hcases).
  pose proof (lookup_lt_Some _ _ _ Hc) as Hlt.
  destruct Hcases as [(chain' & Hs & _ & -> & ->)|[(Hm & _ & Hsz & ->)|(_ & [=] & _)]].
  - destruct (scan_cases chain k) as [Hm|(pre & e & post & -> & Hpre & He)];
      [by rewrite insert_scan_miss in Hs|].
    rewrite insert_scan_hit in Hs by done. injection Hs as <-.
    eexists. split.
    + erewrite (insert_found _ k v2 t i (pre ++ mkPair (key e) v1 :: post));
        [|by rewrite (getIndex_capacity _ ht)
         |by apply list_lookup_insert_eq
         |by apply (insert_scan_hit pre (mkPair (key e) v1) post)].
      simpl. by rewrite list_insert_insert_eq.
    + eapply insert_found; [done..|]. by apply insert_scan_hit.
  - assert (t = true :: true :: t1) as ->.
    { unfold insert, bind, lift in H.
      rewrite Hi, (bucket_at_lookup _ _ _ Hc), (insert_scan_miss _ _ _ Hm) in H.
      unfold malloc, strdup, bind, ret in H.
      destruct t as [|[] [|[] t]]; simpl in H; try done.
      destruct (size ht <? INT_MAX); [|done]. by injection H as _ ->. }
    eexists. split.
    + erewrite (insert_found _ k v2 t1 i (mkPair (c_str k) v1 :: chain));
        [|by rewrite (getIndex_capacity _ ht)
         |by apply list_lookup_insert_eq
         |by apply (insert_scan_hit [] (mkPair (c_str k) v1) chain);
            [constructor|apply strcmp_c_str_l, strcmp_refl]].
      simpl. by rewrite list_insert_insert_eq.
    + by apply insert_absent.
Qed.

Lemma insert_twice_witness :
  insert crowded_table (str "g") 70 [true; true; false]
    = Ok ((true, mkTable 2 [ [mkPair (str "g") 70; mkPair (str "e") 50;
                               mkPair (str "c") 30; mkPair (str "a") 10];
                             [mkPair (str "b") 20] ] 5), [false]) ∧
  ∃ ht2,
    insert (mkTable 2 [ [mkPair (str "g") 70; mkPair (str "e") 50;
                         mkPair (str "c") 30; mkPair (str "a") 10];
                       [mkPair (str "b") 20] ] 5) (str "g") 71 [false]
    = Ok ((true, ht2), [false]) ∧
    insert crowded_table (str "g") 71 [true; true; false] = Ok ((true, ht2), [false]).
Proof.
  assert (insert crowded_table (str "g") 70 [true; true; false]
          = Ok ((true, mkTable 2 [ [mkPair (str "g") 70; mkPair (str "e") 50;
                                     mkPair (str "c") 30; mkPair (str "a") 10];
                                   [mkPair (str "b") 20] ] 5), [false])) as H
    by reflexivity.
  exact (conj H (insert_twice _ _ 70 71 _ _ _ H)).
Defined.

(** ** Delete, lookup and the other keys *)

(** X5. Deleting twice: on a valid table, whatever the first [delete] of a
    key returned, a second [delete] of the same key returns [false] and
    changes nothing. *)
Theorem delete_twice (ht : HashTable) (k : list byte) (b : bool)
    (ht1 : HashTable) :
  valid ht → delete ht k = Ok (b, ht1) → delete ht1 k = Ok (false, ht1).
Proof.
  intros Hv Hdel. pose proof (valid_delete _ _ _ _ Hv Hdel) as Hv1.
  destruct (delete_Ok _ _ _ _ Hdel) as (i & chain & Hi & Hc & Hcases).
  destruct Hcases as [(Hm & _ & ->)|(pre & e & post & -> & Hpre & He & _ & Hsz & ->)].
  - by eapply delete_missed.
  - assert (contains ht k) as Hk.
    { exists e. split; [|done]. apply elem_of_entries.
      exists i, (pre ++ e :: post). split; [done|].
      rewrite elem_of_app, elem_of_cons. by right; left. }
    destruct (contains_split ht k Hv Hk)
      as (i' & pre' & e' & post' & Hi' & Hc' & Hpre' & He' & Hpost').
    rewrite Hi in Hi'. injection Hi' as <-%Nat2Z.inj.
    rewrite Hc in Hc'. injection Hc' as Hsplit.
    assert (misses k (pre ++ post)) as Hm.
    { assert (misses k (pre ++ e :: post) ∨ misses k post) as [Hall|Hpost];
        [|apply Forall_app in Hall as [_ [Hne _]%Forall_cons]; done
         |by apply Forall_app].
      right. clear -Hsplit Hpre Hpre' He He' Hpost'.
      revert pre' Hsplit Hpre'. induction Hpre as [|x pre Hx _ IH]; intros pre' Hsplit Hpre'.
      - destruct pre' as [|x' pre']; simpl in Hsplit.
        + by injection Hsplit as -> ->.
        + injection Hsplit as -> _. by apply Forall_cons in Hpre' as [? _].
      - destruct pre' as [|x' pre']; simpl in Hsplit.
        + by injection Hsplit as -> _.
        + injection Hsplit as -> Hsplit. apply Forall_cons in Hpre' as [_ Hpre'].
          by apply (IH pre'). }
    eapply (delete_missed _ k i (pre ++ post)); [|simpl|done].
    + by rewrite (getIndex_capacity _ ht).
    + apply list_lookup_insert_eq. by eapply lookup_lt_Some.
Qed.

Lemma delete_twice_witness :
  (valid crowded_table ∧
   delete crowded_table (str "c")
   = Ok (true, mkTable 2 [ [mkPair (str "e") 50; mkPair (str "a") 10];
                           [mkPair (str "b") 20] ] 3)) ∧
  delete (mkTable 2 [ [mkPair (str "e") 50; mkPair (str "a") 10];
                     [mkPair (str "b") 20] ] 3) (str "c")
  = Ok (false, mkTable 2 [ [mkPair (str "e") 50; mkPair (str "a") 10];
                           [mkPair (str "b") 20] ] 3).
Proof.
  assert (valid crowded_table) as Hv by (apply validb_sound; reflexivity).
  assert (delete crowded_table (str "c")
          = Ok (true, mkTable 2 [ [mkPair (str "e") 50; mkPair (str "a") 10];
                                  [mkPair (str "b") 20] ] 3)) as Hd by reflexivity.
  exact (conj (conj Hv Hd) (delete_twice _ _ _ _ Hv Hd)).
Defined.

(** X8. A result of [get] other than [NULL] is the value of a node of the
    table whose key is equal to the key asked for: [get] never makes up a
    value, whatever state the table is in. *)
Theorem get_not_NULL_stored (ht : HashTable) (k : list byte) (p : ptr) :
  get ht k = Ok p → p ≠ NULL →
  ∃ e, e ∈ entries ht ∧ strcmp (key e) k = 0 ∧ value e = p.
Proof.
  intros (i & chain & Hi & Hc & ->)%get_Ok Hp.
  destruct (scan_cases chain k) as [Hm|(pre & e & post & -> & Hpre & He)].
  - by rewrite get_scan_miss in Hp.
  - exists e. split_and!; [|done|by rewrite get_scan_hit].
    apply elem_of_entries. exists i, (pre ++ e :: post). split; [done|].
    rewrite elem_of_app, elem_of_cons. by right; left.
Qed.

Lemma get_not_NULL_stored_witness :
  (get crowded_table (str "c") = Ok 30 ∧ 30 ≠ NULL) ∧
  ∃ e, e ∈ entries crowded_table ∧ strcmp (key e) (str "c") = 0 ∧ value e = 30.
Proof.
  assert (get crowded_table (str "c") = Ok 30) as H1 by reflexivity.
  assert (30 ≠ NULL) as H2 by (unfold NULL; lia).
  exact (conj (conj H1 H2) (get_not_NULL_stored _ _ _ H1 H2)).
Defined.

(** X9. Calls on other keys are invisible to [get]: after any sequence of
    calls that neither insert nor delete a key equal to [k], whether they
    succeed, fail to allocate or find nothing, [get(k)] answers what it
    answered before, the not-found answer included. *)
Theorem get_frame (ht : HashTable) (k : list byte) (ops : list op) (t : tape)
    (ht' : HashTable) (t' : tape) :
  Forall (λ o, touches k o = false) ops →
  run ops ht t = Ok (ht', t') →
  get ht' k = get ht k.
Proof. apply get_run_other. Qed.

Lemma get_frame_witness :
  (Forall (λ o, touches (str "x") o = false)
     [Insert (str "g") 70; Delete (str "e"); Insert (str "y") 90; Get (str "x")] ∧
   run [Insert (str "g") 70; Delete (str "e"); Insert (str "y") 90; Get (str "x")]
     crowded_table [true; true; false]
   = Ok (mkTable 2 [ [mkPair (str "g") 70; mkPair (str "c") 30; mkPair (str "a") 10];
                     [mkPair (str "b") 20] ] 4, [])) ∧
  get (mkTable 2 [ [mkPair (str "g") 70; mkPair (str "c") 30; mkPair (str "a") 10];
                   [mkPair (str "b") 20] ] 4) (str "x")
  = get crowded_table (str "x").
Proof.
  assert (Forall (λ o, touches (str "x") o = false)
            [Insert (str "g") 70; Delete (str "e"); Insert (str "y") 90;
             Get (str "x")]) as H1 by (repeat constructor).
  assert (run [Insert (str "g") 70; Delete (str "e"); Insert (str "y") 90;
               Get (str "x")] crowded_table [true; true; false]
          = Ok (mkTable 2 [ [mkPair (str "g") 70; mkPair (str "c") 30;
                              mkPair (str "a") 10];
                            [mkPair (str "b") 20] ] 4, [])) as H2 by reflexivity.
  exact (conj (conj H1 H2) (get_frame _ _ _ _ _ _ H1 H2)).
Defined.

Lemma scan_strcmp k1 k2 chain :
  strcmp k1 k2 = 0 →
  (∀ v, insert_scan chain k1 v = insert_scan chain k2 v) ∧
  get_scan chain k1 = get_scan chain k2 ∧
  (∀ before, delete_scan before chain k1 = delete_scan before chain k2).
Proof.
  intros Hk.
  assert (∀ e, (strcmp (key e) k1 =? 0) = (strcmp (key e) k2 =? 0)) as Heq.
  { intros e.
    destruct (Z.eqb_spec (strcmp (key e) k1) 0) as [H1|H1],
             (Z.eqb_spec (strcmp (key e) k2) 0) as [H2|H2]; try done.
    - destruct H2. by eapply strcmp_trans.
    - destruct H1. eapply strcmp_trans; [done|]. by apply strcmp_sym. }
  induction chain as [|node next (IH1 & IH2 & IH3)]; [done|].
  simpl. rewrite !Heq. split_and!.
  - intros v. by rewrite IH1.
  - by rewrite IH2.
  - intros before. by rewrite IH3.
Qed.

(** X10. Keys are compared by their characters, not by their address: two
    key arguments with the same characters up to the terminating NUL get the
    same result and the same table from [get], [insert] and [delete]. *)
Theorem same_characters_same_key (ht : HashTable) (k1 k2 : list byte) :
  c_str k1 = c_str k2 →
  get ht k1 = get ht k2 ∧
  delete ht k1 = delete ht k2 ∧
  ∀ v t, insert ht k1 v t = insert ht k2 v t.
Proof.
  intros Hc. assert (strcmp k1 k2 = 0) as Hk by by apply strcmp_c_str.
  pose proof (getIndex_strcmp ht _ _ Hk) as Hi.
  split_and!.
  - unfold get. rewrite Hi. destruct (getIndex ht k2); [simpl|done].
    destruct (bucket_at ht a) as [chain|]; [simpl|done].
    by rewrite (proj1 (proj2 (scan_strcmp _ _ chain Hk))).
  - unfold delete. rewrite Hi. destruct (getIndex ht k2); [simpl|done].
    destruct (bucket_at ht a) as [chain|]; [simpl|done].
    by rewrite (proj2 (proj2 (scan_strcmp _ _ chain Hk))).
  - intros v t. unfold insert, bind, lift. rewrite Hi.
    destruct (getIndex ht k2); [|done].
    destruct (bucket_at ht a) as [chain|]; [|done].
    rewrite (proj1 (scan_strcmp _ _ chain Hk)).
    destruct (insert_scan chain k2 v); [done|].
    unfold strdup, bind, malloc, ret. rewrite Hc.
    by destruct t as [|[] [|[] t]].
Qed.

Lemma same_characters_same_key_witness :
  c_str (str "c" ++ [x00; x41]) = c_str (str "c") ∧
  (get crowded_table (str "c" ++ [x00; x41]) = get crowded_table (str "c") ∧
   delete crowded_table (str "c" ++ [x00; x41]) = delete crowded_table (str "c") ∧
   ∀ v t, insert crowded_table (str "c" ++ [x00; x41]) v t
          = insert crowded_table (str "c") v t).
Proof.
  assert (c_str (str "c" ++ [x00; x41]) = c_str (str "c")) as H by reflexivity.
  exact (conj H (same_characters_same_key crowded_table _ _ H)).
Defined.

(** ** Construction and the capacity *)

(** X11. With a positive capacity [createHashTable] returns [NULL] exactly
    when one of its two allocations is refused; the table it returns
    otherwise has [c] empty buckets and size 0, satisfies the representation
    invariant, and every key is absent from it: [get] answers [NULL] and
    [delete] answers [false]. *)
Theorem createHashTable_positive (c : Z) (t : tape) :
  0 < c <= INT_MAX →
  ∃ t', createHashTable c t
        = Ok (if grants 2 t then Some (mkTable c (replicate (Z.to_nat c) []) 0)
              else None, t') ∧
        valid (mkTable c (replicate (Z.to_nat c) []) 0) ∧
        ∀ k, get (mkTable c (replicate (Z.to_nat c) []) 0) k = Ok NULL ∧
             delete (mkTable c (replicate (Z.to_nat c) []) 0) k
             = Ok (false, mkTable c (replicate (Z.to_nat c) []) 0).
Proof.
  intros Hc. pose proof (valid_create c Hc) as Hv.
  unfold empty_buckets in Hv.
  assert (∃ t', createHashTable c t
                = Ok (if grants 2 t then Some (mkTable c (replicate (Z.to_nat c) []) 0)
                      else None, t')) as [t' Ht'].
  { unfold createHashTable, bind, malloc, ret, empty_buckets.
    destruct t as [|[] [|[] t]]; simpl; eauto. }
  exists t'. split_and!; [done..|]. intros k.
  destruct (locate _ k (valid_capacity _ Hv) (valid_array _ Hv))
    as (i & chain & _ & Hi & Hchain & _).
  assert (chain = []) as ->.
  { simpl in Hchain. by apply lookup_replicate in Hchain as [-> _]. }
  split.
  - by rewrite (get_at _ _ _ _ Hi Hchain).
  - eapply delete_missed; [done..|]. constructor.
Qed.

Lemma createHashTable_positive_witness :
  0 < 10 <= INT_MAX ∧
  ∃ t', createHashTable 10 [true; true; false]
        = Ok (if grants 2 [true; true; false]
              then Some (mkTable 10 (replicate (Z.to_nat 10) []) 0)
              else None, t') ∧
        valid (mkTable 10 (replicate (Z.to_nat 10) []) 0) ∧
        ∀ k, get (mkTable 10 (replicate (Z.to_nat 10) []) 0) k = Ok NULL ∧
             delete (mkTable 10 (replicate (Z.to_nat 10) []) 0) k
             = Ok (false, mkTable 10 (replicate (Z.to_nat 10) []) 0).
Proof.
  assert (0 < 10 <= INT_MAX) as H by (vm_compute; split; congruence).
  exact (conj H (createHashTable_positive 10 [true; true; false] H)).
Defined.

(** X7. A table built with capacity 0 or with a negative capacity cannot be
    used: every [insert], [get] and [delete] on it is undefined behaviour, a
    division by zero in [getIndex] for capacity 0 and an access to a bucket
    that was never initialised for a negative capacity. *)
Theorem nonpositive_capacity_unusable (c : Z) (t : tape) (ht : HashTable)
    (t1 : tape) :
  INT_MIN <= c <= 0 →
  createHashTable c t = Ok (Some ht, t1) →
  ∀ o t', step ht o t'
          = Undefined (if c =? 0 then DivisionByZero else OutOfBounds).
Proof.
  intros Hc ->%createHashTable_Some o t'.
  unfold empty_buckets. replace (Z.to_nat c) with 0%nat by lia. simpl.
  destruct (Z.eqb_spec c 0) as [->|Hne].
  - by destruct o.
  - assert (∀ k, ∃ index, getIndex (mkTable c [] 0) k = Ok index) as Hidx.
    { intros k. unfold getIndex. simpl.
      destruct (Z.eqb_spec (to_ulong c) 0) as [H0|]; [|eauto].
      unfold to_ulong, ULONG_MODULUS, ULONG_BITS in H0.
      apply Z.mod_divide in H0 as [q Hq]; [|done]. unfold INT_MIN in Hc. lia. }
    assert (∀ index, bucket_at (mkTable c [] 0) index = Undefined OutOfBounds) as Hb.
    { intros index. unfold bucket_at. simpl. by destruct (index <? 0). }
    destruct o as [k v|k|k]; destruct (Hidx k) as [index Hi];
      unfold step, insert, get, delete, bind, lift; rewrite Hi; simpl;
      by rewrite Hb.
Qed.

Lemma nonpositive_capacity_unusable_witness :
  (INT_MIN <= 0 <= 0 ∧
   createHashTable 0 [true; true] = Ok (Some (mkTable 0 [] 0), [])) ∧
  ∀ o t', step (mkTable 0 [] 0) o t'
          = Undefined (if 0 =? 0 then DivisionByZero else OutOfBounds).
Proof.
  assert (INT_MIN <= 0 <= 0) as H1 by (vm_compute; split; congruence).
  assert (createHashTable 0 [true; true] = Ok (Some (mkTable 0 [] 0), [])) as H2
    by reflexivity.
  exact (conj (conj H1 H2) (nonpositive_capacity_unusable 0 _ _ _ H1 H2)).
Defined.

(** ** Many keys *)

Lemma entries_insert_head ht (i : nat) chain e sz x :
  array ht !! i = Some chain →
  x ∈ entries (mkTable (capacity ht) (<[i:=e :: chain]> (array ht)) sz) →
  x = e ∨ x ∈ entries ht.
Proof.
  intros Hc. destruct (entries_split _ _ _ Hc) as (front & back & Hent & Hent').
  rewrite Hent, Hent'.
  rewrite !elem_of_app, elem_of_cons. tauto.
Qed.

(** X6. Collisions never drop an entry: inserting pairs whose keys are
    pairwise different and not yet stored, with every allocation granted,
    succeeds for each pair whatever the capacity, grows the size by the
    number of pairs, and leaves a valid table from which [get] returns the
    value of each pair. *)
Theorem inserts_distinct (kvs : list (list byte * ptr)) (ht : HashTable)
    (t : tape) :
  valid ht →
  NoDup (c_str <$> kvs.*1) →
  Forall (λ kv, ¬ contains ht kv.1) kvs →
  size ht + Z.of_nat (length kvs) <= INT_MAX →
  ∃ ht', run (inserts kvs) ht (replicate (2 * length kvs) true ++ t) = Ok (ht', t) ∧
         size ht' = size ht + Z.of_nat (length kvs) ∧
         valid ht' ∧
         Forall (λ kv, get ht' kv.1 = Ok kv.2) kvs.
Proof.
  revert ht. induction kvs as [|[k v] kvs IH]; intros ht Hv Hnd Habs Hsz.
  - exists ht. simpl. split_and!; [done|lia|done|constructor].
  - rewrite fmap_cons in Hnd. simpl in Hnd. apply NoDup_cons in Hnd as [Hk Hnd].
    apply Forall_cons in Habs as [Habs_k Habs]. simpl in Habs_k.
    rewrite length_cons in Hsz.
    destruct (locate ht k (valid_capacity _ Hv) (valid_array _ Hv))
      as (i & chain & _ & Hi & Hc & _).
    pose proof (absent_misses _ _ _ _ Habs_k Hc) as Hm.
    assert (size ht < INT_MAX) as Hlt by lia.
    pose proof (insert_absent ht k v (replicate (2 * length kvs) true ++ t)
                  i chain Hi Hc Hm Hlt) as Hins.
    set (ht1 := mkTable (capacity ht) (<[i:=mkPair (c_str k) v :: chain]> (array ht))
                  (size ht + 1)) in *.
    assert (valid ht1) as Hv1 by by eapply valid_insert.
    assert (∀ k', k' ∈ kvs.*1 → strcmp k' k ≠ 0) as Hother.
    { intros k' Hk' Heq. apply Hk. apply list_elem_of_fmap. exists k'.
      split; [|done]. symmetry. by apply strcmp_c_str. }
    destruct (IH ht1) as (ht' & Hrun & Hsz' & Hv' & Hget); [done|done| |simpl; lia|].
    { apply Forall_forall. intros [k' v'] Hkv (x & Hx & Hxk). simpl in Hxk.
      destruct (entries_insert_head ht i chain _ _ x Hc Hx) as [->|Hx'].
      - simpl in Hxk. apply (Hother k').
        + apply list_elem_of_fmap. by exists (k', v').
        + apply strcmp_sym. by apply strcmp_c_str_l.
      - rewrite Forall_forall in Habs. apply (Habs _ Hkv). by exists x. }
    exists ht'. split_and!.
    + replace (replicate (2 * length ((k, v) :: kvs)) true ++ t)
        with (true :: true :: replicate (2 * length kvs) true ++ t).
      2:{ rewrite length_cons.
          by replace (2 * S (length kvs))%nat with (S (S (2 * length kvs))) by lia. }
      change (inserts ((k, v) :: kvs)) with (Insert k v :: inserts kvs).
      cbn [run step]. unfold bind at 1. unfold bind at 1. rewrite Hins. exact Hrun.
    + rewrite Hsz', length_cons. simpl. lia.
    + done.
    + constructor; [|done]. simpl.
      assert (Forall (λ o, touches k o = false) (inserts kvs)) as Htouch.
      { apply Forall_forall. intros o (kv & -> & Hkv)%list_elem_of_fmap. simpl.
        apply Z.eqb_neq, Hother. apply list_elem_of_fmap. by exists kv. }
      rewrite (get_run_other _ _ _ _ _ _ Htouch Hrun). by eapply get_insert.
Qed.

Lemma inserts_distinct_witness :
  (valid crowded_table ∧
   NoDup (c_str <$> [(str "g", 70); (str "i", 90); (str "d", 40)].*1) ∧
   Forall (λ kv, ¬ contains crowded_table kv.1)
     [(str "g", 70); (str "i", 90); (str "d", 40)] ∧
   size crowded_table
   + Z.of_nat (length [(str "g", 70); (str "i", 90); (str "d", 40)]) <= INT_MAX) ∧
  ∃ ht', run (inserts [(str "g", 70); (str "i", 90); (str "d", 40)]) crowded_table
           (replicate (2 * length [(str "g", 70); (str "i", 90); (str "d", 40)]) true
            ++ [false])
         = Ok (ht', [false]) ∧
         size ht' = size crowded_table
                    + Z.of_nat (length [(str "g", 70); (str "i", 90); (str "d", 40)]) ∧
         valid ht' ∧
         Forall (λ kv, get ht' kv.1 = Ok kv.2)
           [(str "g", 70); (str "i", 90); (str "d", 40)].
Proof.
  assert (valid crowded_table) as Hv by (apply validb_sound; reflexivity).
  assert (NoDup (c_str <$> [(str "g", 70); (str "i", 90); (str "d", 40)].*1)) as Hnd
    by (apply (bool_decide_unpack _); reflexivity).
  assert (Forall (λ kv, ¬ contains crowded_table kv.1)
            [(str "g", 70); (str "i", 90); (str "d", 40)]) as Habs.
  { repeat constructor; intros (e & He & Hk); vm_compute in He;
      repeat (apply elem_of_cons in He as [->|He]; [by vm_compute in Hk|]);
      by apply elem_of_nil in He. }
  assert (size crowded_table
          + Z.of_nat (length [(str "g", 70); (str "i", 90); (str "d", 40)])
          <= INT_MAX) as Hsz by (vm_compute; congruence).
  exact (conj (conj Hv (conj Hnd (conj Habs Hsz)))
           (inserts_distinct _ crowded_table [false] Hv Hnd Habs Hsz)).
Defined.

(** * The heap level *)

(** ** The primitives *)

Lemma heap_bind_Done {A B} (m : Heap.P A) (f : A → Heap.P B) st a st' :
  m st = Heap.Done (a, st') → Heap.bind m f st = f a st'.
Proof. unfold Heap.bind. by intros ->. Qed.

Lemma heap_bind_Fails {A B} (m : Heap.P A) (f : A → Heap.P B) st r :
  m st = Heap.Fails r → Heap.bind m f st = Heap.Fails r.
Proof. unfold Heap.bind. by intros ->. Qed.

Lemma heap_load h sp p b :
  p ≠ NULL → h !! p = Some b →
  Heap.load p (Heap.mkState h sp) = Heap.Done (b, Heap.mkState h sp).
Proof. intros Hp Hb. unfold Heap.load. simpl. by rewrite decide_False, Hb. Qed.

Lemma heap_load_head h sp ht c a s :
  ht ≠ NULL → h !! ht = Some (Heap.Head c a s) →
  Heap.load_head ht (Heap.mkState h sp) = Heap.Done ((c, a, s), Heap.mkState h sp).
Proof.
  intros Hp Hb. unfold Heap.load_head.
  by rewrite (heap_bind_Done _ _ _ _ _ (heap_load _ _ _ _ Hp Hb)).
Qed.

Lemma heap_load_pair h sp p k v n :
  p ≠ NULL → h !! p = Some (Heap.Pair k v n) →
  Heap.load_pair p (Heap.mkState h sp) = Heap.Done ((k, v, n), Heap.mkState h sp).
Proof.
  intros Hp Hb. unfold Heap.load_pair.
  by rewrite (heap_bind_Done _ _ _ _ _ (heap_load _ _ _ _ Hp Hb)).
Qed.

Lemma heap_load_chars h sp p s :
  p ≠ NULL → h !! p = Some (Heap.Chars s) →
  Heap.load_chars p (Heap.mkState h sp) = Heap.Done (s, Heap.mkState h sp).
Proof.
  intros Hp Hb. unfold Heap.load_chars.
  by rewrite (heap_bind_Done _ _ _ _ _ (heap_load _ _ _ _ Hp Hb)).
Qed.

Lemma heap_load_slots h sp p l :
  p ≠ NULL → h !! p = Some (Heap.Slots l) →
  Heap.load_slots p (Heap.mkState h sp) = Heap.Done (l, Heap.mkState h sp).
Proof.
  intros Hp Hb. unfold Heap.load_slots.
  by rewrite (heap_bind_Done _ _ _ _ _ (heap_load _ _ _ _ Hp Hb)).
Qed.

Lemma heap_store h sp p b b0 :
  p ≠ NULL → h !! p = Some b0 →
  Heap.store p b (Heap.mkState h sp)
  = Heap.Done (tt, Heap.mkState (<[p:=b]> h) sp).
Proof. intros Hp Hb. unfold Heap.store. simpl. by rewrite decide_False, Hb. Qed.

Lemma heap_free h sp p b0 :
  p ≠ NULL → h !! p = Some b0 →
  Heap.free p (Heap.mkState h sp)
  = Heap.Done (tt, Heap.mkState (base.delete p h) sp).
Proof. intros Hp Hb. unfold Heap.free. simpl. by rewrite decide_False, Hb. Qed.

Lemma heap_read_bucket h sp ht c arr s slots index :
  ht ≠ NULL → h !! ht = Some (Heap.Head c arr s) →
  arr ≠ NULL → h !! arr = Some (Heap.Slots slots) →
  Heap.read_bucket ht index (Heap.mkState h sp)
  = if index <? 0 then Heap.Fails (Heap.Undef OutOfBounds)
    else match slots !! Z.to_nat index with
         | Some p => Heap.Done (p, Heap.mkState h sp)
         | None => Heap.Fails (Heap.Undef OutOfBounds)
         end.
Proof.
  intros Hht Hh Harr Ha. unfold Heap.read_bucket.
  rewrite (heap_bind_Done _ _ _ _ _ (heap_load_head _ _ _ _ _ _ Hht Hh)). simpl.
  rewrite (heap_bind_Done _ _ _ _ _ (heap_load_slots _ _ _ _ Harr Ha)).
  destruct (index <? 0); [done|]. by destruct (slots !! Z.to_nat index).
Qed.

Lemma heap_write_bucket h sp ht c arr s slots (i : nat) p :
  ht ≠ NULL → h !! ht = Some (Heap.Head c arr s) →
  arr ≠ NULL → h !! arr = Some (Heap.Slots slots) →
  (i < length slots)%nat →
  Heap.write_bucket ht (Z.of_nat i) p (Heap.mkState h sp)
  = Heap.Done (tt, Heap.mkState (<[arr:=Heap.Slots (<[i:=p]> slots)]> h) sp).
Proof.
  intros Hht Hh Harr Ha Hi. unfold Heap.write_bucket.
  rewrite (heap_bind_Done _ _ _ _ _ (heap_load_head _ _ _ _ _ _ Hht Hh)). simpl.
  rewrite (heap_bind_Done _ _ _ _ _ (heap_load_slots _ _ _ _ Harr Ha)).
  destruct (Z.ltb_spec (Z.of_nat i) 0); [lia|].
  destruct (Z.leb_spec (Z.of_nat (length slots)) (Z.of_nat i)); [lia|]. simpl.
  rewrite Nat2Z.id. by eapply heap_store.
Qed.

(** ** Chains in the heap *)

Lemma chain_at_agree h h' p chain cells :
  Heap.chain_at h p chain cells →
  (∀ q, q ∈ cells → h' !! q = h !! q) →
  Heap.chain_at h' p chain cells.
Proof.
  revert p cells. induction chain as [|e rest IH]; intros p cells; simpl; [done|].
  intros (kp & next & cells' & Hp & Hkp & -> & Hnode & Hkey & Hrest) Hagree.
  exists kp, next, cells'. split_and!; try done.
  - rewrite Hagree; [done|]. by apply elem_of_cons; left.
  - rewrite Hagree; [done|]. apply elem_of_cons; right. by apply elem_of_cons; left.
  - apply IH; [done|]. intros q Hq. apply Hagree.
    apply elem_of_cons; right. by apply elem_of_cons; right.
Qed.

Lemma chain_at_length h p chain cells :
  Heap.chain_at h p chain cells → length cells = (2 * length chain)%nat.
Proof.
  revert p cells. induction chain as [|e rest IH]; intros p cells; simpl.
  - by intros [_ ->].
  - intros (kp & next & cells' & _ & _ & -> & _ & _ & Hrest).
    simpl. rewrite (IH _ _ Hrest). lia.
Qed.

Lemma chain_at_allocated h p chain cells q :
  Heap.chain_at h p chain cells → q ∈ cells → q ≠ NULL ∧ is_Some (h !! q).
Proof.
  revert p cells. induction chain as [|e rest IH]; intros p cells; simpl.
  - intros [_ ->] Hq. by apply elem_of_nil in Hq.
  - intros (kp & next & cells' & Hp & Hkp & -> & Hnode & Hkey & Hrest) Hq.
    apply elem_of_cons in Hq as [->|Hq]; [by eauto|].
    apply elem_of_cons in Hq as [->|Hq]; [by eauto|]. by eapply IH.
Qed.

(** Distinct allocated addresses are no more than the heap has blocks. *)
Lemma allocated_length (h : Heap.heap) (cells : list Z) :
  NoDup cells → (∀ q, q ∈ cells → is_Some (h !! q)) →
  (length cells ≤ base.size h)%nat.
Proof.
  intros Hnd Hin. rewrite <- (size_dom (D:=gset Z) h).
  unfold base.size at 1, set_size. simpl.
  apply submseteq_length, NoDup_submseteq; [done|].
  intros q Hq. apply elem_of_elements, elem_of_dom. by apply Hin.
Qed.

Lemma chain_at_patience h p chain cells :
  Heap.chain_at h p chain cells → NoDup cells →
  (length chain < S (base.size h))%nat.
Proof.
  intros Hc Hnd.
  pose proof (allocated_length h cells Hnd) as Hle.
  rewrite (chain_at_length _ _ _ _ Hc) in Hle.
  assert (2 * length chain ≤ base.size h)%nat; [|lia].
  apply Hle. intros q Hq. by eapply chain_at_allocated.
Qed.

(** ** Lookup on the heap *)

Lemma heap_get_loop h sp n p chain cells k :
  Heap.chain_at h p chain cells → (length chain < n)%nat →
  Heap.get_loop n p k (Heap.mkState h sp)
  = Heap.Done (get_scan chain k, Heap.mkState h sp).
Proof.
  revert n p cells. induction chain as [|e rest IH]; intros n p cells Hc Hn.
  - destruct Hc as [-> _]. destruct n; [simpl in Hn; lia|]. done.
  - destruct Hc as (kp & next & cells' & Hp & Hkp & -> & Hnode & Hkey & Hrest).
    destruct n as [|n]; [simpl in Hn; lia|]. simpl.
    rewrite decide_False by done.
    rewrite (heap_bind_Done _ _ _ _ _ (heap_load_pair _ _ _ _ _ _ Hp Hnode)). simpl.
    rewrite (heap_bind_Done _ _ _ _ _ (heap_load_chars _ _ _ _ Hkp Hkey)).
    destruct (strcmp (key e) k =? 0); [done|].
    eapply IH; [done|]. simpl in Hn. lia.
Qed.

Lemma heap_getIndex h sp ht T arr k :
  ht ≠ NULL → h !! ht = Some (Heap.Head (capacity T) arr (size T)) →
  Heap.getIndex ht k (Heap.mkState h sp)
  = match getIndex T k with
    | Ok index => Heap.Done (index, Heap.mkState h sp)
    | Undefined u => Heap.Fails (Heap.Undef u)
    end.
Proof.
  intros Hht Hh. unfold Heap.getIndex, getIndex.
  rewrite (heap_bind_Done _ _ _ _ _ (heap_load_head _ _ _ _ _ _ Hht Hh)). simpl.
  by destruct (to_ulong (capacity T) =? 0).
Qed.

Lemma buckets_at_lookup h slots chains cellss index :
  Heap.buckets_at h slots chains cellss →
  match chains !! index with
  | Some chain => ∃ p cells, slots !! index = Some p ∧ cellss !! index = Some cells ∧
                             Heap.chain_at h p chain cells
  | None => slots !! index = None
  end.
Proof.
  intros (Hl1 & Hl2 & Hall).
  destruct (chains !! index) as [chain|] eqn:Hc.
  - pose proof (lookup_lt_Some _ _ _ Hc) as Hlt.
    destruct (lookup_lt_is_Some_2 slots index) as [p Hp]; [lia|].
    destruct (lookup_lt_is_Some_2 cellss index) as [cells Hcells]; [lia|].
    exists p, cells. split_and!; [done..|]. by eapply Hall.
  - apply lookup_ge_None. apply lookup_ge_None in Hc. lia.
Qed.

Lemma NoDup_concat_lookup (cellss : list (list Z)) (i : nat) cells :
  NoDup (concat cellss) → cellss !! i = Some cells → NoDup cells.
Proof.
  intros Hnd Hi. rewrite <- (take_drop_middle _ _ _ Hi) in Hnd.
  rewrite concat_app, concat_cons in Hnd.
  apply NoDup_app in Hnd as (_ & _ & Hnd). by apply NoDup_app in Hnd as (Hnd & _).
Qed.

Lemma heap_get_spec h ht T cells sp k :
  Heap.table_at h ht T cells →
  Heap.get ht k (Heap.mkState h sp)
  = match get T k with
    | Ok p => Heap.Done (p, Heap.mkState h sp)
    | Undefined u => Heap.Fails (Heap.Undef u)
    end.
Proof.
  intros (arr & slots & cellss & Hht & Harr & -> & Hnd & Hh & Ha & Hb).
  unfold Heap.get, get.
  pose proof (heap_getIndex h sp ht T arr k Hht Hh) as Hi.
  destruct (getIndex T k) as [index|u]; simpl;
    [|by rewrite (heap_bind_Fails _ _ _ _ Hi)].
  rewrite (heap_bind_Done _ _ _ _ _ Hi).
  pose proof (heap_read_bucket h sp ht _ arr _ slots index Hht Hh Harr Ha) as Hr.
  unfold bucket_at. destruct (index <? 0); simpl;
    [by rewrite (heap_bind_Fails _ _ _ _ Hr)|].
  pose proof (buckets_at_lookup _ _ _ _ (Z.to_nat index) Hb) as Hl.
  destruct (array T !! Z.to_nat index) as [chain|]; simpl.
  - destruct Hl as (p & cs & Hp & Hcs & Hchain). rewrite Hp in Hr.
    rewrite (heap_bind_Done _ _ _ _ _ Hr).
    unfold Heap.patience at 1. unfold Heap.bind at 1.
    eapply heap_get_loop; [done|].
    eapply chain_at_patience; [done|].
    apply NoDup_cons in Hnd as [_ Hnd]. apply NoDup_cons in Hnd as [_ Hnd].
    by eapply NoDup_concat_lookup.
  - rewrite Hl in Hr. by rewrite (heap_bind_Fails _ _ _ _ Hr).
Qed.

(** ** The cells of the buckets *)

Lemma concat_split (cellss : list (list Z)) (i : nat) ci :
  cellss !! i = Some ci →
  ∃ front back,
    concat cellss = front ++ ci ++ back ∧
    (∀ ci', concat (<[i:=ci']> cellss) = front ++ ci' ++ back) ∧
    (∀ (j : nat) cj q, j ≠ i → cellss !! j = Some cj → q ∈ cj → q ∈ front ++ back).
Proof.
  intros Hi.
  exists (concat (take i cellss)), (concat (drop (S i) cellss)). split_and!.
  - rewrite <- (take_drop_middle _ _ _ Hi) at 1. by rewrite concat_app, concat_cons.
  - intros ci'. rewrite insert_take_drop by by eapply lookup_lt_Some.
    by rewrite concat_app, concat_cons.
  - intros j cj q Hne Hj Hq. rewrite elem_of_app, !list_elem_of_In, !in_concat.
    destruct (decide (j < i)%nat) as [Hlt|Hge].
    + left. exists cj. rewrite <- !list_elem_of_In. split; [|done].
      apply list_elem_of_lookup. exists j. by rewrite lookup_take_lt.
    + right. exists cj. rewrite <- !list_elem_of_In. split; [|done].
      apply list_elem_of_lookup. exists (j - S i)%nat. rewrite lookup_drop.
      by replace (S i + (j - S i))%nat with j by lia.
Qed.

Lemma buckets_at_update h h' slots chains cellss (i : nat) p' chain' ci' :
  Heap.buckets_at h slots chains cellss →
  Heap.chain_at h' p' chain' ci' →
  (∀ (j : nat) cj q, j ≠ i → cellss !! j = Some cj → q ∈ cj → h' !! q = h !! q) →
  Heap.buckets_at h' (<[i:=p']> slots) (<[i:=chain']> chains) (<[i:=ci']> cellss).
Proof.
  intros (Hl1 & Hl2 & Hall) Hnew Hagree. split_and!.
  - by rewrite !length_insert.
  - by rewrite !length_insert.
  - intros j p chain cells Hp Hc Hcs.
    destruct (decide (i = j)) as [<-|Hne].
    + pose proof (lookup_lt_Some _ _ _ Hp) as Hlt. rewrite length_insert in Hlt.
      rewrite list_lookup_insert_eq in Hp by lia.
      rewrite list_lookup_insert_eq in Hc by lia.
      rewrite list_lookup_insert_eq in Hcs by lia.
      by injection Hp as <-; injection Hc as <-; injection Hcs as <-.
    + rewrite list_lookup_insert_ne in Hp by done.
      rewrite list_lookup_insert_ne in Hc by done.
      rewrite list_lookup_insert_ne in Hcs by done.
      eapply chain_at_agree; [by eapply Hall|].
      intros q Hq. by eapply Hagree.
Qed.

Lemma buckets_at_agree h h' slots chains cellss :
  Heap.buckets_at h slots chains cellss →
  (∀ q, q ∈ concat cellss → h' !! q = h !! q) →
  Heap.buckets_at h' slots chains cellss.
Proof.
  intros (Hl1 & Hl2 & Hall) Hagree. split_and!; [done..|].
  intros j p chain cells Hp Hc Hcs.
  eapply chain_at_agree; [by eapply Hall|].
  intros q Hq. apply Hagree. rewrite list_elem_of_In, in_concat.
  exists cells. rewrite <- !list_elem_of_In. split; [|done].
  by eapply list_elem_of_lookup_2.
Qed.

Lemma table_at_allocated h ht T cells q :
  Heap.table_at h ht T cells → q ∈ cells → q ≠ NULL ∧ is_Some (h !! q).
Proof.
  intros (arr & slots & cellss & Hht & Harr & -> & Hnd & Hh & Ha & Hb) Hq.
  apply elem_of_cons in Hq as [->|Hq]; [by eauto|].
  apply elem_of_cons in Hq as [->|Hq]; [by eauto|].
  rewrite list_elem_of_In, in_concat in Hq.
  destruct Hq as (cs & Hcs%list_elem_of_In & Hq%list_elem_of_In).
  apply list_elem_of_lookup in Hcs as [i Hi].
  destruct Hb as (Hl1 & Hl2 & Hall).
  pose proof (lookup_lt_Some _ _ _ Hi) as Hlt. unfold ptr in *.
  destruct (lookup_lt_is_Some_2 slots i) as [p Hp]; [lia|].
  destruct (lookup_lt_is_Some_2 (array T) i) as [chain Hchain]; [lia|].
  eapply chain_at_allocated; [by eapply Hall|done].
Qed.

(** ** Insert on the heap *)

Lemma heap_insert_loop h sp n p chain cells k v :
  Heap.chain_at h p chain cells → NoDup cells → (length chain < n)%nat →
  match insert_scan chain k v with
  | None =>
      Heap.insert_loop n p k v (Heap.mkState h sp)
      = Heap.Done (false, Heap.mkState h sp)
  | Some chain' =>
      ∃ h', Heap.insert_loop n p k v (Heap.mkState h sp)
            = Heap.Done (true, Heap.mkState h' sp) ∧
            Heap.chain_at h' p chain' cells ∧
            (∀ q, q ∉ cells → h' !! q = h !! q)
  end.
Proof.
  revert n p cells. induction chain as [|e rest IH]; intros n p cells Hc Hnd Hn.
  - destruct Hc as [-> _]. destruct n; [simpl in Hn; lia|]. done.
  - destruct Hc as (kp & next & cells' & Hp & Hkp & -> & Hnode & Hkey & Hrest).
    apply NoDup_cons in Hnd as [Hp_fresh Hnd].
    apply NoDup_cons in Hnd as [Hkp_fresh Hnd].
    rewrite not_elem_of_cons in Hp_fresh. destruct Hp_fresh as [Hpk Hp_fresh].
    destruct n as [|n]; [simpl in Hn; lia|]. simpl.
    rewrite decide_False by done.
    rewrite (heap_bind_Done _ _ _ _ _ (heap_load_pair _ _ _ _ _ _ Hp Hnode)). simpl.
    rewrite (heap_bind_Done _ _ _ _ _ (heap_load_chars _ _ _ _ Hkp Hkey)).
    destruct (strcmp (key e) k =? 0).
    + exists (<[p:=Heap.Pair kp v next]> h). split_and!.
      * by rewrite (heap_bind_Done _ _ _ _ _ (heap_store _ _ _ _ _ Hp Hnode)).
      * exists kp, next, cells'. simpl. split_and!; try done.
        -- by rewrite lookup_insert_eq.
        -- by rewrite lookup_insert_ne.
        -- eapply chain_at_agree; [done|]. intros q Hq.
           rewrite lookup_insert_ne; [done|]. by intros ->.
      * intros q Hq. rewrite lookup_insert_ne; [done|].
        intros ->. apply Hq. by apply elem_of_cons; left.
    + specialize (IH n next cells' Hrest Hnd ltac:(simpl in Hn; lia)).
      destruct (insert_scan rest k v) as [rest'|]; simpl; [|done].
      destruct IH as (h' & Hrun & Hrest' & Hframe).
      exists h'. split_and!; [done| |].
      * exists kp, next, cells'. split_and!; try done.
        -- by rewrite Hframe.
        -- by rewrite Hframe.
      * intros q Hq. apply Hframe. intros Hq'. apply Hq.
        apply elem_of_cons; right. by apply elem_of_cons; right.
Qed.

Lemma table_at_rebuild h h' ht arr (slots : list ptr) chains cellss (i : nat)
    p' chain' ci' cap sz' :
  ht ≠ NULL → arr ≠ NULL →
  Heap.buckets_at h slots chains cellss →
  NoDup (ht :: arr :: concat (<[i:=ci']> cellss)) →
  h' !! ht = Some (Heap.Head cap arr sz') →
  h' !! arr = Some (Heap.Slots (<[i:=p']> slots)) →
  Heap.chain_at h' p' chain' ci' →
  (∀ (j : nat) cj q, j ≠ i → cellss !! j = Some cj → q ∈ cj → h' !! q = h !! q) →
  Heap.table_at h' ht (mkTable cap (<[i:=chain']> chains) sz')
    (ht :: arr :: concat (<[i:=ci']> cellss)).
Proof.
  intros Hht Harr Hb Hnd Hh Ha Hc Hagree.
  exists arr, (<[i:=p']> slots), (<[i:=ci']> cellss).
  split_and!; try done. simpl. by eapply buckets_at_update.
Qed.

Lemma heap_malloc_cases h sp sz :
  (∃ a sp', a ≠ NULL ∧ h !! a = None ∧
            Heap.malloc sz (Heap.mkState h sp)
            = Heap.Done (a, Heap.mkState (<[a:=Heap.Raw]> h) sp'))
  ∨ (∃ sp', Heap.malloc sz (Heap.mkState h sp)
             = Heap.Done (NULL, Heap.mkState h sp')).
Proof.
  unfold Heap.malloc. simpl. destruct sp as [|[a|] sp]; [by right; eauto| |by right; eauto].
  destruct (decide (a ≠ NULL ∧ h !! a = None)) as [[Ha Hfresh]|]; [|by right; eauto].
  left. by exists a, sp.
Qed.

Lemma heap_patience h sp :
  Heap.patience (Heap.mkState h sp)
  = Heap.Done (S (base.size h), Heap.mkState h sp).
Proof. done. Qed.

Lemma heap_strdup_cases h sp s :
  (∃ b sp', b ≠ NULL ∧ h !! b = None ∧
            Heap.strdup s (Heap.mkState h sp)
            = Heap.Done (b, Heap.mkState (<[b:=Heap.Chars (c_str s)]> h) sp'))
  ∨ (∃ sp', Heap.strdup s (Heap.mkState h sp)
             = Heap.Done (NULL, Heap.mkState h sp')).
Proof.
  unfold Heap.strdup.
  destruct (heap_malloc_cases h sp (strlen s + 1))
    as [(b & sp' & Hb & Hfresh & Hm)|(sp' & Hm)];
    rewrite (heap_bind_Done _ _ _ _ _ Hm).
  - left. exists b, sp'. split_and!; [done..|].
    rewrite decide_False by done.
    erewrite heap_bind_Done; [|eapply heap_store; [done|by apply lookup_insert_eq]].
    by rewrite insert_insert_eq.
  - right. exists sp'. by rewrite decide_True.
Qed.

Lemma heap_insert_spec h0 h ht T cells sp k v :
  Heap.table_at h ht T cells → Heap.extends h0 h cells →
  ∃ t, match insert T k v t with
       | Ok ((b, T'), _) =>
           ∃ h' sp' cells',
             Heap.insert ht k v (Heap.mkState h sp)
             = Heap.Done (b, Heap.mkState h' sp') ∧
             Heap.table_at h' ht T' cells' ∧ Heap.extends h0 h' cells'
       | Undefined u =>
           Heap.insert ht k v (Heap.mkState h sp) = Heap.Fails (Heap.Undef u)
       end.
Proof.
  intros Htab Hext.
  pose proof (λ q, table_at_allocated _ _ _ _ q Htab) as Halloc.
  destruct Htab as (arr & slots & cellss & Hht & Harr & -> & Hnd & Hh & Ha & Hb).
  unfold ptr in *.
  pose proof (heap_getIndex h sp ht T arr k Hht Hh) as Hi.
  unfold Heap.insert, insert, bind, lift.
  destruct (getIndex T k) as [index|u];
    [|exists []; by rewrite (heap_bind_Fails _ _ _ _ Hi)].
  rewrite (heap_bind_Done _ _ _ _ _ Hi).
  pose proof (heap_read_bucket h sp ht _ arr _ slots index Hht Hh Harr Ha) as Hr.
  destruct (bucket_at T index) as [chain|u] eqn:Hbk; cycle 1.
  { exists []. unfold bucket_at in Hbk.
    destruct (index <? 0); [injection Hbk as <-; by rewrite (heap_bind_Fails _ _ _ _ Hr)|].
    pose proof (buckets_at_lookup _ _ _ _ (Z.to_nat index) Hb) as Hl.
    destruct (array T !! Z.to_nat index); [done|]. injection Hbk as <-.
    rewrite Hl in Hr. by rewrite (heap_bind_Fails _ _ _ _ Hr). }
  apply bucket_at_inv in Hbk as [Hpos Hchain].
  destruct (Z.ltb_spec index 0); [lia|].
  pose proof (buckets_at_lookup _ _ _ _ (Z.to_nat index) Hb) as Hl.
  rewrite Hchain in Hl. destruct Hl as (p & ci & Hp & Hci & Hc).
  rewrite Hp in Hr. rewrite (heap_bind_Done _ _ _ _ _ Hr).
  rewrite (heap_bind_Done _ _ _ _ _ (heap_patience h sp)).
  pose proof Hnd as Hnd0.
  apply NoDup_cons in Hnd as [Hht_cells Hnd]. apply NoDup_cons in Hnd as [Harr_cells Hnd].
  rewrite not_elem_of_cons in Hht_cells. destruct Hht_cells as [Hne Hht_cells].
  pose proof (NoDup_concat_lookup _ _ _ Hnd Hci) as Hnd_ci.
  destruct (concat_split _ _ _ Hci) as (front & back & Hcat & Hcat' & Hother).
  assert (∀ q, q ∈ ci → q ∈ concat cellss) as Hci_in.
  { intros q Hq. rewrite Hcat, !elem_of_app. tauto. }
  assert (∀ (j : nat) cj q, j ≠ Z.to_nat index → cellss !! j = Some cj → q ∈ cj →
            (q ∉ ci) ∧ q ∈ concat cellss) as Hdisj.
  { intros j cj q Hj Hcj Hq. specialize (Hother j cj q Hj Hcj Hq).
    rewrite Hcat in Hnd. rewrite Hcat. apply NoDup_app in Hnd as (_ & Hf & Hnd).
    apply NoDup_app in Hnd as (_ & Hm & _).
    rewrite !elem_of_app. rewrite elem_of_app in Hother.
    split; [|tauto]. intros Hqi. destruct Hother as [Hqf|Hqb].
    - apply (Hf q Hqf). rewrite elem_of_app. tauto.
    - by apply (Hm q Hqi). }
  pose proof (heap_insert_loop h sp (S (base.size h)) p chain ci k v Hc Hnd_ci
                (chain_at_patience _ _ _ _ Hc Hnd_ci)) as Hloop.
  destruct (insert_scan chain k v) as [chain'|].
  - (* the key is in the chain *)
    exists []. destruct Hloop as (h' & Hrun & Hc' & Hframe).
    exists h', sp, (ht :: arr :: concat cellss).
    rewrite (heap_bind_Done _ _ _ _ _ Hrun). split_and!; [done| |].
    + replace (ht :: arr :: concat cellss)
        with (ht :: arr :: concat (<[Z.to_nat index:=ci]> cellss))
        by (by rewrite list_insert_id).
      eapply (table_at_rebuild h h' ht arr slots (array T) cellss);
        try done.
      * by rewrite list_insert_id.
      * rewrite Hframe; [done|]. intros Hq. by apply Hht_cells, Hci_in.
      * rewrite list_insert_id by done. rewrite Hframe; [done|].
        intros Hq. by apply Harr_cells, Hci_in.
      * intros j cj q Hj Hcj Hq. apply Hframe. by eapply Hdisj.
    + destruct Hext as [Hext1 Hext2]. split; [done|].
      intros q Hq. rewrite <- Hext2 by done. apply Hframe.
      intros Hqi. apply Hq. do 2 (apply elem_of_cons; right). by apply Hci_in.
  - (* the key is not in the chain: allocate *)
    rewrite (heap_bind_Done _ _ _ _ _ Hloop).
    destruct (heap_malloc_cases h sp sizeof_KeyValuePair)
      as [(a & sp1 & Ha0 & Hfresh_a & Hm1)|(sp1 & Hm1)];
      rewrite (heap_bind_Done _ _ _ _ _ Hm1); cycle 1.
    { exists []. simpl. exists h, sp1, (ht :: arr :: concat cellss).
      split_and!; [done| |done].
      by exists arr, slots, cellss. }
    rewrite decide_False by done.
    set (h1 := <[a:=Heap.Raw]> h).
    destruct (heap_strdup_cases h1 sp1 k)
      as [(b & sp2 & Hb0 & Hfresh_b & Hm2)|(sp2 & Hm2)];
      rewrite (heap_bind_Done _ _ _ _ _ Hm2); cycle 1.
    { exists [true]. cbv beta iota delta [malloc strdup ret bind negb lift].
      exists h, sp2, (ht :: arr :: concat cellss).
      split_and!; [|by exists arr, slots, cellss|done].
      rewrite decide_True by done.
      erewrite heap_bind_Done; [|eapply heap_free; [done|by apply lookup_insert_eq]].
      unfold h1. by rewrite delete_insert_id. }
    assert (a ≠ b) as Hab.
    { intros ->. unfold h1 in Hfresh_b. by rewrite lookup_insert_eq in Hfresh_b. }
    assert (h !! b = None) as Hfresh_b'.
    { unfold h1 in Hfresh_b. by rewrite lookup_insert_ne in Hfresh_b. }
    assert (∀ q, q ∈ ht :: arr :: concat cellss → q ≠ a ∧ q ≠ b) as Hold.
    { intros q Hq. destruct (Halloc q Hq) as [_ [x Hx]]. split; intros ->.
      - discriminate (eq_trans (eq_sym Hx) Hfresh_a).
      - discriminate (eq_trans (eq_sym Hx) Hfresh_b'). }
    destruct (Hold ht) as [Hht_a Hht_b]; [by apply elem_of_cons; left|].
    destruct (Hold arr) as [Harr_a Harr_b];
      [apply elem_of_cons; right; by apply elem_of_cons; left|].
    exists [true; true].
    cbv beta iota delta [malloc strdup ret bind negb lift].
    rewrite decide_False by done.
    set (h3 := <[b:=Heap.Chars (c_str k)]> h1).
    assert (h3 !! ht = Some (Heap.Head (capacity T) arr (size T))) as Hh3.
    { unfold h3, h1. by rewrite !lookup_insert_ne. }
    assert (h3 !! arr = Some (Heap.Slots slots)) as Ha3.
    { unfold h3, h1. by rewrite !lookup_insert_ne. }
    pose proof (heap_read_bucket h3 sp2 ht _ arr _ slots index Hht Hh3 Harr Ha3) as Hr3.
    destruct (Z.ltb_spec index 0); [lia|]. rewrite Hp in Hr3.
    rewrite (heap_bind_Done _ _ _ _ _ Hr3).
    erewrite heap_bind_Done; cycle 1.
    { eapply heap_store; [done|]. unfold h3, h1.
      rewrite !lookup_insert_ne by done. by apply lookup_insert_eq. }
    set (h4 := <[a:=Heap.Pair b v p]> h3).
    erewrite heap_bind_Done; cycle 1.
    { rewrite <- (Z2Nat.id index) at 1 by done.
      eapply (heap_write_bucket h4 sp2 ht _ arr _ slots).
      - done.
      - unfold h4. by rewrite lookup_insert_ne.
      - done.
      - unfold h4. by rewrite lookup_insert_ne.
      - by eapply lookup_lt_Some. }
    set (h5 := <[arr:=Heap.Slots (<[Z.to_nat index:=a]> slots)]> h4).
    erewrite heap_bind_Done; cycle 1.
    { eapply heap_load_head; [done|]. unfold h5, h4.
      rewrite !lookup_insert_ne by done. exact Hh3. }
    cbn [fst snd]. destruct (size T <? INT_MAX); [|reflexivity].
    erewrite heap_bind_Done; cycle 1.
    { eapply heap_store; [done|]. unfold h5, h4.
      rewrite !lookup_insert_ne by done. exact Hh3. }
    set (h6 := <[ht:=Heap.Head (capacity T) arr (size T + 1)]> h5).
    assert (∀ q, q ≠ a → q ≠ b → q ≠ ht → q ≠ arr → h6 !! q = h !! q) as Hframe.
    { intros q ? ? ? ?. unfold h6, h5, h4, h3, h1. by rewrite !lookup_insert_ne. }
    exists h6, sp2, (ht :: arr :: concat (<[Z.to_nat index:=a :: b :: ci]> cellss)).
    assert (a ∉ ht :: arr :: concat cellss) as Ha_new
      by (intros Hq; by destruct (Hold a Hq)).
    assert (b ∉ ht :: arr :: concat cellss) as Hb_new
      by (intros Hq; by destruct (Hold b Hq)).
    split_and!; [done| |].
    + eapply (table_at_rebuild h h6 ht arr slots (array T) cellss); try done.
      * rewrite Hcat'.
        assert (ht :: arr :: front ++ (a :: b :: ci) ++ back
                ≡ₚ a :: b :: ht :: arr :: concat cellss) as ->.
        { rewrite Hcat. solve_Permutation. }
        apply NoDup_cons. split; [|by apply NoDup_cons].
        rewrite not_elem_of_cons. by split.
      * unfold h6. by rewrite lookup_insert_eq.
      * unfold h6, h5. rewrite lookup_insert_ne by done. by rewrite lookup_insert_eq.
      * exists b, p, ci. simpl. split_and!; try done.
        -- unfold h6, h5, h4. rewrite !lookup_insert_ne by done.
           by rewrite lookup_insert_eq.
        -- unfold h6, h5, h4, h3. rewrite !lookup_insert_ne by done.
           by rewrite lookup_insert_eq.
        -- eapply chain_at_agree; [done|]. intros q Hq.
           assert (q ∈ ht :: arr :: concat cellss) as Hq'
             by (do 2 (apply elem_of_cons; right); by apply Hci_in).
           destruct (Hold q Hq'). apply Hframe; try done.
           ++ intros ->. by apply Hht_cells, Hci_in.
           ++ intros ->. by apply Harr_cells, Hci_in.
      * intros j cj q Hj Hcj Hq. destruct (Hdisj j cj q Hj Hcj Hq) as [_ Hq'].
        assert (q ∈ ht :: arr :: concat cellss) as Hq''
          by (by do 2 (apply elem_of_cons; right)).
        destruct (Hold q Hq''). apply Hframe; try done.
        -- by intros ->.
        -- by intros ->.
    + destruct Hext as [Hext1 Hext2].
      assert (∀ q, q ∈ ht :: arr :: concat (<[Z.to_nat index:=a :: b :: ci]> cellss) ↔
                   q = a ∨ q = b ∨ q ∈ ht :: arr :: concat cellss) as Hmem.
      { intros q. rewrite Hcat', Hcat.
        rewrite !elem_of_cons, !elem_of_app, !elem_of_cons. tauto. }
      split.
      * intros q [->|[->|Hq]]%Hmem; [| |by apply Hext1].
        -- by rewrite <- Hext2.
        -- by rewrite <- Hext2.
      * intros q Hq. rewrite Hmem in Hq.
        rewrite <- Hext2 by tauto. apply Hframe; try tauto.
        -- intros ->. apply Hq. right; right. by apply elem_of_cons; left.
        -- intros ->. apply Hq. right; right. apply elem_of_cons; right.
           by apply elem_of_cons; left.
Qed.

(** ** Delete on the heap *)

(** The loop of [delete] from the node [current], with [prev] the node before
    it ([NULL] at the head of the chain of bucket [i]): the node of the key
    is unlinked from what points to it, it and its key are freed, and the
    size in the table block is decremented. *)
Lemma heap_delete_loop h sp ht arr cap sz slots (i : nat) k :
  ht ≠ NULL → arr ≠ NULL → ht ≠ arr →
  h !! ht = Some (Heap.Head cap arr sz) →
  h !! arr = Some (Heap.Slots slots) →
  (i < length slots)%nat →
  ∀ chain n current prev pk pv cells,
    Heap.chain_at h current chain cells → NoDup cells →
    ht ∉ cells → arr ∉ cells → (length chain < n)%nat →
    (prev = NULL → slots !! i = Some current) →
    (prev ≠ NULL → (prev ∉ cells) ∧ prev ≠ ht ∧ prev ≠ arr ∧
                   h !! prev = Some (Heap.Pair pk pv current)) →
    (misses k chain →
     Heap.delete_loop n ht (Z.of_nat i) current prev k (Heap.mkState h sp)
     = Heap.Done (false, Heap.mkState h sp)) ∧
    (∀ pre e post,
       chain = pre ++ e :: post → misses k pre → strcmp (key e) k = 0 →
       if INT_MIN <? sz
       then ∃ h' p' cells' q kq,
           Heap.delete_loop n ht (Z.of_nat i) current prev k (Heap.mkState h sp)
           = Heap.Done (true, Heap.mkState h' sp) ∧
           Heap.chain_at h' p' (pre ++ post) cells' ∧
           cells ≡ₚ q :: kq :: cells' ∧
           h' !! q = None ∧ h' !! kq = None ∧
           h' !! ht = Some (Heap.Head cap arr (sz - 1)) ∧
           (prev = NULL → h' !! arr = Some (Heap.Slots (<[i:=p']> slots))) ∧
           (prev ≠ NULL → h' !! arr = Some (Heap.Slots slots) ∧
                          h' !! prev = Some (Heap.Pair pk pv p')) ∧
           (∀ x, x ∉ cells → x ≠ ht → x ≠ arr → (prev ≠ NULL → x ≠ prev) →
                 h' !! x = h !! x)
       else Heap.delete_loop n ht (Z.of_nat i) current prev k (Heap.mkState h sp)
            = Heap.Fails (Heap.Undef SignedOverflow)).
Proof.
  intros Hht Harr Hne Hh Ha Hi.
  induction chain as [|e0 rest IH];
    intros n current prev pk pv cells Hc Hnd Hht_c Harr_c Hn Hlink0 Hlink1.
  { destruct Hc as [-> _]. destruct n; [simpl in Hn; lia|]. split; [done|].
    intros [|??] ?? [=]. }
  destruct Hc as (kp & next & cells' & Hp & Hkp & -> & Hnode & Hkey & Hrest).
  apply NoDup_cons in Hnd as [Hp_fresh Hnd].
  apply NoDup_cons in Hnd as [Hkp_fresh Hnd].
  rewrite not_elem_of_cons in Hp_fresh. destruct Hp_fresh as [Hpk Hp_fresh].
  rewrite !not_elem_of_cons in Hht_c, Harr_c.
  destruct Hht_c as (Hht_p & Hht_kp & Hht_c). destruct Harr_c as (Harr_p & Harr_kp & Harr_c).
  destruct n as [|n]; [simpl in Hn; lia|].
  assert (length rest < n)%nat as Hn' by (simpl in Hn; lia).
  assert (Heap.delete_loop (S n) ht (Z.of_nat i) current prev k (Heap.mkState h sp)
          = if strcmp (key e0) k =? 0
            then Heap.bind
                   (if decide (prev = NULL)
                    then Heap.write_bucket ht (Z.of_nat i) next
                    else Heap.bind (Heap.load_pair prev)
                           (λ p, Heap.store prev (Heap.Pair p.1.1 p.1.2 next)))
                   (λ _, Heap.bind (Heap.free kp)
                     (λ _, Heap.bind (Heap.free current)
                       (λ _, Heap.bind (Heap.load_head ht)
                         (λ hd, if INT_MIN <? hd.2
                                then Heap.bind
                                       (Heap.store ht (Heap.Head hd.1.1 hd.1.2 (hd.2 - 1)))
                                       (λ _, Heap.ret true)
                                else Heap.fails (Heap.Undef SignedOverflow)))))
                   (Heap.mkState h sp)
            else Heap.delete_loop n ht (Z.of_nat i) next current k (Heap.mkState h sp))
    as Hunfold.
  { simpl. rewrite decide_False by done.
    rewrite (heap_bind_Done _ _ _ _ _ (heap_load_pair _ _ _ _ _ _ Hp Hnode)). simpl.
    rewrite (heap_bind_Done _ _ _ _ _ (heap_load_chars _ _ _ _ Hkp Hkey)).
    by destruct (strcmp (key e0) k =? 0). }
  rewrite Hunfold. clear Hunfold.
  assert ((current ∉ cells') ∧ current ≠ ht ∧ current ≠ arr ∧
          h !! current = Some (Heap.Pair kp (value e0) next)) as Hlink'
    by (split_and!; done).
  specialize (IH n next current kp (value e0) cells' Hrest Hnd Hht_c Harr_c Hn'
                (λ H, False_ind _ (Hp H)) (λ _, Hlink')).
  destruct IH as [IHmiss IHhit]. split.
  - intros [Hne0 Hmiss]%Forall_cons.
    destruct (Z.eqb_spec (strcmp (key e0) k) 0); [done|]. by apply IHmiss.
  - intros pre e post Hsplit Hpre He. destruct pre as [|e1 pre]; simpl in Hsplit.
    + (* the node of the key is [current] *)
      injection Hsplit as <- <-. rewrite He. simpl.
      assert (∃ h1, (if decide (prev = NULL)
                     then Heap.write_bucket ht (Z.of_nat i) next
                     else Heap.bind (Heap.load_pair prev)
                            (λ p, Heap.store prev (Heap.Pair p.1.1 p.1.2 next)))
                      (Heap.mkState h sp) = Heap.Done (tt, Heap.mkState h1 sp) ∧
                    h1 !! ht = Some (Heap.Head cap arr sz) ∧
                    h1 !! kp = h !! kp ∧ h1 !! current = h !! current ∧
                    (prev = NULL → h1 !! arr = Some (Heap.Slots (<[i:=next]> slots))) ∧
                    (prev ≠ NULL → h1 !! arr = Some (Heap.Slots slots) ∧
                                   h1 !! prev = Some (Heap.Pair pk pv next)) ∧
                    (∀ x, x ≠ arr → (prev ≠ NULL → x ≠ prev) → h1 !! x = h !! x))
        as (h1 & Hstep1 & Hh1 & Hkp1 & Hcur1 & Harr1 & Hprev1 & Hframe1).
      { destruct (decide (prev = NULL)) as [Hprev|Hprev].
        - exists (<[arr:=Heap.Slots (<[i:=next]> slots)]> h). split_and!.
          + by eapply heap_write_bucket.
          + by rewrite lookup_insert_ne.
          + by rewrite lookup_insert_ne.
          + by rewrite lookup_insert_ne.
          + intros _. by rewrite lookup_insert_eq.
          + done.
          + intros x Hx _. by rewrite lookup_insert_ne.
        - destruct (Hlink1 Hprev) as (Hprev_c & Hprev_ht & Hprev_arr & Hprev_h).
          rewrite !not_elem_of_cons in Hprev_c.
          destruct Hprev_c as (Hprev_p & Hprev_kp & Hprev_c).
          exists (<[prev:=Heap.Pair pk pv next]> h). split_and!.
          + rewrite (heap_bind_Done _ _ _ _ _
                       (heap_load_pair _ _ _ _ _ _ Hprev Hprev_h)).
            simpl. by eapply heap_store.
          + by rewrite lookup_insert_ne.
          + by rewrite lookup_insert_ne.
          + by rewrite lookup_insert_ne.
          + done.
          + intros _. rewrite lookup_insert_ne by done. by rewrite lookup_insert_eq.
          + intros x _ Hx. rewrite lookup_insert_ne; [done|].
            intros Heq. by apply (Hx Hprev). }
      rewrite (heap_bind_Done _ _ _ _ _ Hstep1).
      erewrite heap_bind_Done; [|eapply heap_free; [done|by rewrite Hkp1]].
      erewrite heap_bind_Done;
        [|eapply heap_free; [done|rewrite lookup_delete_ne by done; by rewrite Hcur1]].
      erewrite heap_bind_Done;
        [|eapply heap_load_head; [done|by rewrite !lookup_delete_ne]].
      cbn [fst snd]. destruct (INT_MIN <? sz); [|reflexivity].
      erewrite heap_bind_Done;
        [|eapply heap_store; [done|by rewrite !lookup_delete_ne]].
      set (h4 := <[ht:=Heap.Head cap arr (sz - 1)]>
                   (base.delete current (base.delete kp h1))).
      assert (∀ x, x ≠ current → x ≠ kp → x ≠ ht → h4 !! x = h1 !! x) as Hframe4.
      { intros x ???. unfold h4. rewrite lookup_insert_ne by done.
        by rewrite !lookup_delete_ne. }
      exists h4, next, cells', current, kp. split_and!.
      * done.
      * simpl. eapply chain_at_agree; [done|]. intros x Hx.
        assert (prev ≠ NULL → x ≠ prev) as Hxp.
        { intros Hp0 ->. destruct (Hlink1 Hp0) as (Hprev_c & _). apply Hprev_c.
          by do 2 (apply elem_of_cons; right). }
        rewrite Hframe4; [|by intros ->..]. rewrite Hframe1; [done|by intros ->|done].
      * done.
      * unfold h4. rewrite lookup_insert_ne by done. by rewrite lookup_delete_eq.
      * unfold h4. rewrite lookup_insert_ne by done.
        rewrite lookup_delete_ne by done. by rewrite lookup_delete_eq.
      * unfold h4. by rewrite lookup_insert_eq.
      * intros Hprev. rewrite Hframe4 by done. by apply Harr1.
      * intros Hprev. destruct (Hlink1 Hprev) as (Hprev_c & Hprev_ht & Hprev_arr & _).
        rewrite !not_elem_of_cons in Hprev_c.
        destruct Hprev_c as (Hprev_p & Hprev_kp & Hprev_c).
        rewrite !Hframe4 by done. by apply Hprev1.
      * intros x Hx Hx_ht Hx_arr Hx_prev. rewrite !not_elem_of_cons in Hx.
        destruct Hx as (? & ? & ?). rewrite Hframe4 by done. by apply Hframe1.
    + (* the node of the key is further down the chain *)
      injection Hsplit as <- ->. apply Forall_cons in Hpre as [Hne0 Hpre].
      destruct (Z.eqb_spec (strcmp (key e0) k) 0); [done|].
      specialize (IHhit pre e post eq_refl Hpre He).
      destruct (INT_MIN <? sz); [|done].
      destruct IHhit as (h' & p' & cells'' & q & kq & Hrun & Hc' & Hperm & Hq & Hkq &
                         Hh' & _ & Hcur' & Hframe').
      destruct (Hcur' Hp) as [Harr' Hcur''].
      exists h', current, (current :: kp :: cells''), q, kq. split_and!.
      * done.
      * exists kp, p', cells''. split_and!; try done.
        rewrite Hframe'; [done..|]. by intros _.
      * rewrite Hperm. solve_Permutation.
      * done.
      * done.
      * done.
      * intros Hprev. rewrite list_insert_id; [done|]. by apply Hlink0.
      * intros Hprev. split; [done|].
        destruct (Hlink1 Hprev) as (Hprev_c & Hprev_ht & Hprev_arr & Hprev_h).
        rewrite !not_elem_of_cons in Hprev_c.
        destruct Hprev_c as (Hprev_p & Hprev_kp & Hprev_c).
        rewrite Hframe'; [done..|]. by intros _.
      * intros x Hx Hx_ht Hx_arr Hx_prev. rewrite !not_elem_of_cons in Hx.
        destruct Hx as (? & ? & ?). apply Hframe'; [done..|]. by intros _.
Qed.

Lemma heap_delete_spec h0 h ht T cells sp k :
  Heap.table_at h ht T cells → Heap.extends h0 h cells →
  match delete T k with
  | Ok (b, T') =>
      ∃ h' cells',
        Heap.delete ht k (Heap.mkState h sp) = Heap.Done (b, Heap.mkState h' sp) ∧
        Heap.table_at h' ht T' cells' ∧ Heap.extends h0 h' cells' ∧
        length cells = ((if b then 2 else 0) + length cells')%nat
  | Undefined u =>
      Heap.delete ht k (Heap.mkState h sp) = Heap.Fails (Heap.Undef u)
  end.
Proof.
  intros Htab Hext.
  pose proof (λ q, table_at_allocated _ _ _ _ q Htab) as Halloc.
  destruct Htab as (arr & slots & cellss & Hht & Harr & -> & Hnd & Hh & Ha & Hb).
  unfold ptr in *.
  pose proof (heap_getIndex h sp ht T arr k Hht Hh) as Hi.
  unfold Heap.delete, delete.
  destruct (getIndex T k) as [index|u]; simpl;
    [|by rewrite (heap_bind_Fails _ _ _ _ Hi)].
  rewrite (heap_bind_Done _ _ _ _ _ Hi).
  pose proof (heap_read_bucket h sp ht _ arr _ slots index Hht Hh Harr Ha) as Hr.
  destruct (bucket_at T index) as [chain|u] eqn:Hbk; simpl; cycle 1.
  { unfold bucket_at in Hbk.
    destruct (index <? 0); [injection Hbk as <-; by rewrite (heap_bind_Fails _ _ _ _ Hr)|].
    pose proof (buckets_at_lookup _ _ _ _ (Z.to_nat index) Hb) as Hl.
    destruct (array T !! Z.to_nat index); [done|]. injection Hbk as <-.
    rewrite Hl in Hr. by rewrite (heap_bind_Fails _ _ _ _ Hr). }
  apply bucket_at_inv in Hbk as [Hpos Hchain].
  destruct (Z.ltb_spec index 0); [lia|].
  pose proof (buckets_at_lookup _ _ _ _ (Z.to_nat index) Hb) as Hl.
  rewrite Hchain in Hl. destruct Hl as (p & ci & Hp & Hci & Hc).
  rewrite Hp in Hr. rewrite (heap_bind_Done _ _ _ _ _ Hr).
  rewrite (heap_bind_Done _ _ _ _ _ (heap_patience h sp)).
  pose proof Hnd as Hnd0.
  apply NoDup_cons in Hnd as [Hht_cells Hnd]. apply NoDup_cons in Hnd as [Harr_cells Hnd].
  rewrite not_elem_of_cons in Hht_cells. destruct Hht_cells as [Hne Hht_cells].
  pose proof (NoDup_concat_lookup _ _ _ Hnd Hci) as Hnd_ci.
  destruct (concat_split _ _ _ Hci) as (front & back & Hcat & Hcat' & Hother).
  assert (∀ q, q ∈ ci → q ∈ concat cellss) as Hci_in.
  { intros q Hq. rewrite Hcat, !elem_of_app. tauto. }
  assert (∀ (j : nat) cj q, j ≠ Z.to_nat index → cellss !! j = Some cj → q ∈ cj →
            (q ∉ ci) ∧ q ∈ concat cellss) as Hdisj.
  { intros j cj q Hj Hcj Hq. specialize (Hother j cj q Hj Hcj Hq).
    rewrite Hcat in Hnd. rewrite Hcat. apply NoDup_app in Hnd as (_ & Hf & Hnd).
    apply NoDup_app in Hnd as (_ & Hm & _).
    rewrite !elem_of_app. rewrite elem_of_app in Hother.
    split; [|tauto]. intros Hqi. destruct Hother as [Hqf|Hqb].
    - apply (Hf q Hqf). rewrite elem_of_app. tauto.
    - by apply (Hm q Hqi). }
  pose proof (lookup_lt_Some _ _ _ Hp) as Hlt.
  destruct (heap_delete_loop h sp ht arr _ _ slots (Z.to_nat index) k
              Hht Harr Hne Hh Ha Hlt chain (S (base.size h)) p NULL 0 0 ci
              Hc Hnd_ci ltac:(by intros ?%Hci_in) ltac:(by intros ?%Hci_in)
              (chain_at_patience _ _ _ _ Hc Hnd_ci) (λ _, Hp)
              (λ H, False_ind _ (H eq_refl))) as [Hmiss Hhit].
  rewrite Z2Nat.id in Hmiss, Hhit by done.
  destruct (scan_cases chain k) as [Hm|(pre & e & post & -> & Hpre & He)].
  - rewrite (delete_scan_miss _ _ _ Hm). simpl.
    exists h, (ht :: arr :: concat cellss). split_and!; [by apply Hmiss| |done|done].
    by exists arr, slots, cellss.
  - rewrite (delete_scan_hit [] _ _ _ _ Hpre He). simpl.
    specialize (Hhit pre e post eq_refl Hpre He).
    destruct (INT_MIN <? size T); [|done].
    destruct Hhit as (h' & p' & cells' & q & kq & Hrun & Hc' & Hperm & Hq & Hkq &
                      Hh' & Harr' & _ & Hframe).
    assert (ht :: arr :: concat cellss
            ≡ₚ q :: kq :: ht :: arr :: concat (<[Z.to_nat index:=cells']> cellss))
      as Hperm_all.
    { rewrite Hcat, Hcat', Hperm. solve_Permutation. }
    assert (NoDup (q :: kq :: ht :: arr :: concat (<[Z.to_nat index:=cells']> cellss)))
      as Hnd_all.
    { rewrite <- Hperm_all. apply NoDup_cons. split; [|by apply NoDup_cons].
      rewrite not_elem_of_cons. done. }
    apply NoDup_cons in Hnd_all as [Hq_new Hnd_all].
    apply NoDup_cons in Hnd_all as [Hkq_new Hnd_all].
    exists h', (ht :: arr :: concat (<[Z.to_nat index:=cells']> cellss)). split_and!.
    + done.
    + eapply (table_at_rebuild h h' ht arr slots (array T) cellss); try done.
      * by apply Harr'.
      * intros j cj x Hj Hcj Hx. destruct (Hdisj j cj x Hj Hcj Hx) as [Hx_ci Hx_in].
        apply Hframe; [done|by intros ->|by intros ->|done].
    + destruct Hext as [Hext1 Hext2]. split.
      * intros x Hx. apply Hext1. rewrite Hperm_all.
        by do 2 (apply elem_of_cons; right).
      * intros x Hx.
        destruct (decide (x = q)) as [->|Hxq];
          [rewrite Hq; symmetry; apply Hext1; rewrite Hperm_all;
           by apply elem_of_cons; left|].
        destruct (decide (x = kq)) as [->|Hxkq];
          [rewrite Hkq; symmetry; apply Hext1; rewrite Hperm_all;
           apply elem_of_cons; right; by apply elem_of_cons; left|].
        assert (x ∉ ht :: arr :: concat cellss) as Hx_old.
        { rewrite Hperm_all. rewrite !not_elem_of_cons.
          rewrite !not_elem_of_cons in Hx. tauto. }
        rewrite <- Hext2 by done. rewrite !not_elem_of_cons in Hx_old.
        destruct Hx_old as (? & ? & Hx_c).
        apply Hframe; [|done..]. intros Hx_ci. by apply Hx_c, Hci_in.
    + pose proof (Permutation_length Hperm_all) as Hlen.
      simpl in Hlen |- *. lia.
Qed.

(** ** Construction and teardown on the heap *)

Lemma concat_replicate_nil {A} (n : nat) : concat (replicate n (@nil A)) = [].
Proof. induction n as [|n IH]; simpl; done. Qed.

Lemma heap_create_spec h0 sp c :
  (∃ sp', Heap.createHashTable c (Heap.mkState h0 sp)
          = Heap.Done (NULL, Heap.mkState h0 sp'))
  ∨ (∃ ht h sp' cells,
       Heap.createHashTable c (Heap.mkState h0 sp)
       = Heap.Done (ht, Heap.mkState h sp') ∧
       ht ≠ NULL ∧
       Heap.table_at h ht (mkTable c (empty_buckets c) 0) cells ∧
       Heap.extends h0 h cells ∧ length cells = 2%nat).
Proof.
  unfold Heap.createHashTable.
  destruct (heap_malloc_cases h0 sp sizeof_HashTable)
    as [(a & sp1 & Ha0 & Hfresh_a & Hm1)|(sp1 & Hm1)];
    rewrite (heap_bind_Done _ _ _ _ _ Hm1); cycle 1.
  { left. exists sp1. by rewrite decide_True. }
  rewrite decide_False by done. set (h1 := <[a:=Heap.Raw]> h0).
  destruct (heap_malloc_cases h1 sp1 (to_ulong (to_ulong c * sizeof_pointer)))
    as [(b & sp2 & Hb0 & Hfresh_b & Hm2)|(sp2 & Hm2)];
    rewrite (heap_bind_Done _ _ _ _ _ Hm2); cycle 1.
  { left. exists sp2. rewrite decide_True by done.
    erewrite heap_bind_Done; [|eapply heap_free; [done|by apply lookup_insert_eq]].
    unfold h1. by rewrite delete_insert_id. }
  assert (a ≠ b) as Hab.
  { intros ->. unfold h1 in Hfresh_b. by rewrite lookup_insert_eq in Hfresh_b. }
  assert (h0 !! b = None) as Hfresh_b'.
  { unfold h1 in Hfresh_b. by rewrite lookup_insert_ne in Hfresh_b. }
  right. rewrite decide_False by done.
  erewrite heap_bind_Done; [|eapply heap_store; [done|by apply lookup_insert_eq]].
  erewrite heap_bind_Done; cycle 1.
  { eapply heap_store; [done|]. rewrite !lookup_insert_ne by done.
    by apply lookup_insert_eq. }
  eexists a, _, sp2, (a :: b :: concat (replicate (Z.to_nat c) [])).
  split_and!; [done|done| | |].
  - exists b, (replicate (Z.to_nat c) NULL), (replicate (Z.to_nat c) []).
    split_and!; try done.
    + rewrite concat_replicate_nil. apply NoDup_cons. split.
      * rewrite not_elem_of_cons. split; [done|]. apply not_elem_of_nil.
      * apply NoDup_singleton.
    + by rewrite lookup_insert_eq.
    + rewrite lookup_insert_ne by done. by rewrite lookup_insert_eq.
    + unfold empty_buckets. simpl. split_and!.
      * by rewrite !length_replicate.
      * by rewrite !length_replicate.
      * intros i p chain cells [-> _]%lookup_replicate [-> _]%lookup_replicate
          [-> _]%lookup_replicate. done.
  - rewrite concat_replicate_nil. split.
    + intros x Hx. rewrite !elem_of_cons in Hx.
      destruct Hx as [->|[->|Hx]]; [done|done|by apply elem_of_nil in Hx].
    + intros x Hx. rewrite !not_elem_of_cons in Hx. destruct Hx as (? & ? & _).
      unfold h1. by rewrite !lookup_insert_ne.
  - by rewrite concat_replicate_nil.
Qed.

Lemma heap_free_chain sp chain :
  ∀ h n p cells,
    Heap.chain_at h p chain cells → NoDup cells → (length chain < n)%nat →
    ∃ h', Heap.free_chain n p (Heap.mkState h sp) = Heap.Done (tt, Heap.mkState h' sp) ∧
          ∀ x, h' !! x = if decide (x ∈ cells) then None else h !! x.
Proof.
  induction chain as [|e rest IH]; intros h n p cells Hc Hnd Hn.
  - destruct Hc as [-> ->]. destruct n; [simpl in Hn; lia|].
    exists h. split; [done|]. intros x. rewrite decide_False; [done|apply not_elem_of_nil].
  - destruct Hc as (kp & next & cells' & Hp & Hkp & -> & Hnode & Hkey & Hrest).
    apply NoDup_cons in Hnd as [Hp_fresh Hnd].
    apply NoDup_cons in Hnd as [Hkp_fresh Hnd].
    rewrite not_elem_of_cons in Hp_fresh. destruct Hp_fresh as [Hpk Hp_fresh].
    destruct n as [|n]; [simpl in Hn; lia|]. simpl.
    rewrite decide_False by done.
    rewrite (heap_bind_Done _ _ _ _ _ (heap_load_pair _ _ _ _ _ _ Hp Hnode)). simpl.
    erewrite heap_bind_Done; [|by eapply heap_free].
    erewrite heap_bind_Done;
      [|eapply heap_free; [done|by rewrite lookup_delete_ne]].
    destruct (IH (base.delete p (base.delete kp h)) n next cells')
      as (h' & Hrun & Hh'); [|done|simpl in Hn; lia|].
    { eapply chain_at_agree; [done|]. intros x Hx.
      rewrite !lookup_delete_ne; [done|by intros ->..]. }
    exists h'. split; [done|]. intros x. rewrite Hh'.
    repeat case_decide;
      repeat match goal with
             | H : _ ∈ _ :: _ |- _ => rewrite !elem_of_cons in H
             | H : _ ∉ _ :: _ |- _ => rewrite !not_elem_of_cons in H
             end.
    + done.
    + tauto.
    + destruct_or!; [subst; by rewrite lookup_delete_eq| |done].
      subst. rewrite lookup_delete_ne by done. by rewrite lookup_delete_eq.
    + destruct_and!. by rewrite !lookup_delete_ne.
Qed.

Lemma heap_free_buckets h sp ht arr cap sz slots chains cellss :
  ht ≠ NULL → arr ≠ NULL →
  h !! ht = Some (Heap.Head cap arr sz) → h !! arr = Some (Heap.Slots slots) →
  Heap.buckets_at h slots chains cellss →
  NoDup (ht :: arr :: concat cellss) →
  ∀ n (i : nat) hi,
    (i + n = length slots)%nat →
    (∀ x, hi !! x = if decide (x ∈ concat (take i cellss)) then None else h !! x) →
    ∃ h', Heap.free_buckets n ht (Z.of_nat i) (Heap.mkState hi sp)
          = Heap.Done (tt, Heap.mkState h' sp) ∧
          ∀ x, h' !! x = if decide (x ∈ concat cellss) then None else h !! x.
Proof.
  intros Hht Harr Hh Ha Hb Hnd.
  pose proof Hb as (Hl1 & Hl2 & Hall).
  apply NoDup_cons in Hnd as [Hht_cells Hnd]. apply NoDup_cons in Hnd as [Harr_cells Hnd].
  rewrite not_elem_of_cons in Hht_cells. destruct Hht_cells as [Hne Hht_cells].
  assert (∀ (i : nat) x, x ∈ concat (take i cellss) → x ∈ concat cellss) as Htake.
  { intros i x. rewrite <- (take_drop i cellss) at 2. rewrite concat_app, elem_of_app. tauto. }
  induction n as [|n IH]; intros i hi Hin Hhi.
  - exists hi. split; [done|]. intros x. rewrite Hhi.
    by rewrite take_ge by (unfold ptr in *; lia).
  - assert (i < length slots)%nat as Hlt by lia.
    destruct (lookup_lt_is_Some_2 slots i) as [p Hp]; [done|].
    destruct (lookup_lt_is_Some_2 chains i) as [chain Hchain]; [lia|].
    destruct (lookup_lt_is_Some_2 cellss i) as [ci Hci]; [lia|].
    pose proof (Hall i p chain ci Hp Hchain Hci) as Hc.
    pose proof (NoDup_concat_lookup _ _ _ Hnd Hci) as Hnd_ci.
    assert (∀ x, x ∈ ci → x ∈ concat cellss ∧ (x ∉ concat (take i cellss))) as Hci_in.
    { intros x Hx. split.
      - rewrite <- (take_drop_middle _ _ _ Hci), concat_app, concat_cons, !elem_of_app.
        tauto.
      - intros Hx'. rewrite <- (take_drop_middle _ _ _ Hci) in Hnd.
        rewrite concat_app, concat_cons in Hnd.
        apply NoDup_app in Hnd as (_ & Hdisj & _).
        apply (Hdisj x Hx'). rewrite elem_of_app. tauto. }
    assert (hi !! ht = Some (Heap.Head cap arr sz)) as Hhi_ht.
    { rewrite Hhi. rewrite decide_False; [done|]. intros Hx. by apply Hht_cells, (Htake i). }
    assert (hi !! arr = Some (Heap.Slots slots)) as Hhi_arr.
    { rewrite Hhi. rewrite decide_False; [done|]. intros Hx. by apply Harr_cells, (Htake i). }
    assert (Heap.chain_at hi p chain ci) as Hc_hi.
    { eapply chain_at_agree; [done|]. intros x Hx. rewrite Hhi.
      rewrite decide_False; [done|]. by apply Hci_in. }
    simpl.
    pose proof (heap_read_bucket hi sp ht _ arr _ slots (Z.of_nat i)
                  Hht Hhi_ht Harr Hhi_arr) as Hr.
    destruct (Z.ltb_spec (Z.of_nat i) 0); [lia|]. rewrite Nat2Z.id, Hp in Hr.
    rewrite (heap_bind_Done _ _ _ _ _ Hr).
    rewrite (heap_bind_Done _ _ _ _ _ (heap_patience hi sp)).
    destruct (heap_free_chain sp chain hi (S (base.size hi)) p ci Hc_hi Hnd_ci
                (chain_at_patience _ _ _ _ Hc_hi Hnd_ci)) as (h1 & Hrun & Hh1).
    rewrite (heap_bind_Done _ _ _ _ _ Hrun).
    replace (Z.of_nat i + 1) with (Z.of_nat (S i)) by lia.
    apply IH; [lia|]. intros x. rewrite Hh1, Hhi.
    rewrite (take_S_r _ _ _ Hci), concat_app, concat_cons, app_nil_r.
    destruct (decide (x ∈ ci)) as [Hx|Hx].
    + rewrite decide_True; [done|]. rewrite elem_of_app. tauto.
    + destruct (decide (x ∈ concat (take i cellss))) as [Hx'|Hx'].
      * rewrite decide_True; [done|]. rewrite elem_of_app. tauto.
      * rewrite decide_False; [done|]. rewrite elem_of_app. tauto.
Qed.

Lemma heap_free_spec h0 h ht T cells sp :
  Heap.table_at h ht T cells → Heap.extends h0 h cells →
  length (array T) = Z.to_nat (capacity T) →
  Heap.freeHashTable ht (Heap.mkState h sp) = Heap.Done (tt, Heap.mkState h0 sp).
Proof.
  intros (arr & slots & cellss & Hht & Harr & -> & Hnd & Hh & Ha & Hb) [Hext1 Hext2] Hlen.
  unfold Heap.freeHashTable. rewrite decide_False by done.
  rewrite (heap_bind_Done _ _ _ _ _ (heap_load_head _ _ _ _ _ _ Hht Hh)). cbn [fst snd].
  destruct (heap_free_buckets h sp ht arr _ _ slots (array T) cellss
              Hht Harr Hh Ha Hb Hnd (Z.to_nat (capacity T)) 0%nat h)
    as (h1 & Hrun & Hh1).
  { destruct Hb as (Hl1 & _). unfold ptr in *. lia. }
  { intros x. cbn [take concat]. rewrite decide_False; [done|apply not_elem_of_nil]. }
  change 0 with (Z.of_nat 0). rewrite (heap_bind_Done _ _ _ _ _ Hrun).
  apply NoDup_cons in Hnd as [Hht_cells Hnd]. apply NoDup_cons in Hnd as [Harr_cells Hnd].
  rewrite not_elem_of_cons in Hht_cells. destruct Hht_cells as [Hne Hht_cells].
  erewrite heap_bind_Done; cycle 1.
  { eapply heap_load_head; [done|]. rewrite Hh1. by rewrite decide_False. }
  cbn [fst snd].
  erewrite heap_bind_Done; cycle 1.
  { eapply heap_free; [done|]. rewrite Hh1. by rewrite decide_False. }
  erewrite heap_free; cycle 1; [done| |].
  { rewrite lookup_delete_ne by done. rewrite Hh1. by rewrite decide_False. }
  do 2 f_equal. f_equal. apply map_eq. intros x.
  destruct (decide (x = ht)) as [->|Hx_ht].
  { rewrite lookup_delete_eq. symmetry. apply Hext1. by apply elem_of_cons; left. }
  rewrite lookup_delete_ne by done.
  destruct (decide (x = arr)) as [->|Hx_arr].
  { rewrite lookup_delete_eq. symmetry. apply Hext1.
    apply elem_of_cons; right. by apply elem_of_cons; left. }
  rewrite lookup_delete_ne by done. rewrite Hh1.
  case_decide as Hx.
  - symmetry. apply Hext1. by do 2 (apply elem_of_cons; right).
  - apply Hext2. rewrite !not_elem_of_cons. done.
Qed.

(** ** Sequences of calls on the heap *)

Lemma step_shape T o t T' t' :
  step T o t = Ok (T', t') →
  capacity T' = capacity T ∧ length (array T') = length (array T) ∧
  size T' <= size T + 1.
Proof.
  destruct o as [k v|k|k]; unfold step, bind, lift, ret.
  - destruct (insert T k v t) as [[[b T1] t1]|] eqn:E; [|done].
    intros [= <- <-]. simpl.
    destruct (insert_Ok _ _ _ _ _ _ _ E) as (i & chain & _ & _ & Hcases).
    destruct Hcases as [(chain' & _ & _ & _ & ->)|[(_ & _ & _ & ->)|(_ & _ & ->)]];
      simpl; rewrite ?length_insert; split_and!; (done || lia).
  - destruct (get T k); [|done]. intros [= <- <-]. split_and!; (done || lia).
  - destruct (delete T k) as [[b T1]|] eqn:E; [|done].
    intros [= <- <-]. simpl.
    destruct (delete_Ok _ _ _ _ E) as (i & chain & _ & _ & Hcases).
    destruct Hcases as [(_ & _ & ->)|(pre & e & post & _ & _ & _ & _ & _ & ->)];
      simpl; rewrite ?length_insert; split_and!; (done || lia).
Qed.

(** On a valid table whose size is below [INT_MAX] no call is undefined. *)
Lemma step_total T o t :
  valid T → size T < INT_MAX → ∃ T' t', step T o t = Ok (T', t').
Proof.
  intros Hv Hsz.
  assert (∀ k, ∃ (i : nat) chain,
            getIndex T k = Ok (Z.of_nat i) ∧ array T !! i = Some chain) as Hloc.
  { intros k. destruct (locate T k (valid_capacity _ Hv) (valid_array _ Hv))
      as (i & chain & _ & Hi & Hc & _). eauto. }
  destruct o as [k v|k|k]; destruct (Hloc k) as (i & chain & Hi & Hc);
    unfold step, bind, lift, ret.
  - unfold insert, bind, lift. rewrite Hi, (bucket_at_lookup _ _ _ Hc).
    destruct (insert_scan chain k v); [unfold ret; eauto|].
    unfold malloc, strdup, bind, ret.
    destruct (Z.ltb_spec (size T) INT_MAX); [|lia].
    destruct t as [|[] [|[] t]]; simpl; eauto.
  - rewrite (get_at _ _ _ _ Hi Hc). eauto.
  - destruct (scan_cases chain k) as [Hm|(pre & e & post & -> & Hpre & He)].
    + rewrite (delete_missed _ _ _ _ Hi Hc Hm). eauto.
    + rewrite (delete_found _ _ _ _ _ _ Hi Hc Hpre He); [eauto|].
      rewrite (valid_size _ Hv). unfold INT_MIN. lia.
Qed.

Lemma heap_step_spec h0 h ht T cells sp o :
  Heap.table_at h ht T cells → Heap.extends h0 h cells →
  (∃ h' sp' T' cells' t t',
     Heap.step ht o (Heap.mkState h sp) = Heap.Done (tt, Heap.mkState h' sp') ∧
     step T o t = Ok (T', t') ∧
     Heap.table_at h' ht T' cells' ∧ Heap.extends h0 h' cells')
  ∨ (∃ u t, Heap.step ht o (Heap.mkState h sp) = Heap.Fails (Heap.Undef u) ∧
            step T o t = Undefined u).
Proof.
  intros Htab Hext. destruct o as [k v|k|k]; unfold Heap.step, step, bind, lift, ret.
  - destruct (heap_insert_spec h0 h ht T cells sp k v Htab Hext) as [t Ht].
    destruct (insert T k v t) as [[[b T'] t']|u] eqn:E.
    + destruct Ht as (h' & sp' & cells' & Hrun & Htab' & Hext').
      left. exists h', sp', T', cells', t, t'.
      rewrite (heap_bind_Done _ _ _ _ _ Hrun), E. done.
    + right. exists u, t. rewrite (heap_bind_Fails _ _ _ _ Ht), E. done.
  - pose proof (heap_get_spec h ht T cells sp k Htab) as Hg.
    destruct (get T k) as [p|u].
    + left. exists h, sp, T, cells, [], [].
      rewrite (heap_bind_Done _ _ _ _ _ Hg). done.
    + right. exists u, []. rewrite (heap_bind_Fails _ _ _ _ Hg). done.
  - pose proof (heap_delete_spec h0 h ht T cells sp k Htab Hext) as Hd.
    destruct (delete T k) as [[b T']|u].
    + destruct Hd as (h' & cells' & Hrun & Htab' & Hext' & _).
      left. exists h', sp, T', cells', [], [].
      rewrite (heap_bind_Done _ _ _ _ _ Hrun). done.
    + right. exists u, []. rewrite (heap_bind_Fails _ _ _ _ Hd). done.
Qed.

Lemma heap_run_spec h0 ht ops :
  ∀ h sp T cells,
    Heap.table_at h ht T cells → Heap.extends h0 h cells →
    length (array T) = Z.to_nat (capacity T) →
    match Heap.run ops ht (Heap.mkState h sp) with
    | Heap.Done (_, st') =>
        ∃ T' cells',
          Heap.table_at (Heap.blocks st') ht T' cells' ∧
          Heap.extends h0 (Heap.blocks st') cells' ∧
          length (array T') = Z.to_nat (capacity T')
    | Heap.Fails f =>
        (∃ u, f = Heap.Undef u) ∧
        ¬ (valid T ∧ size T + Z.of_nat (length ops) <= INT_MAX)
    end.
Proof.
  induction ops as [|o ops IH]; intros h sp T cells Htab Hext Hlen.
  - simpl. by exists T, cells.
  - cbn [Heap.run].
    destruct (heap_step_spec h0 h ht T cells sp o Htab Hext)
      as [(h' & sp' & T' & cells' & t & t' & Hrun & Hstep & Htab' & Hext')
         |(u & t & Hrun & Hstep)].
    + rewrite (heap_bind_Done _ _ _ _ _ Hrun).
      destruct (step_shape _ _ _ _ _ Hstep) as (Hcap & Hlen' & Hsz).
      specialize (IH h' sp' T' cells' Htab' Hext' ltac:(congruence)).
      destruct (Heap.run ops ht (Heap.mkState h' sp')) as [[[] st']|f]; [done|].
      destruct IH as [Hu Hnot]. split; [done|].
      intros [Hv Hbound]. apply Hnot. split; [by eapply valid_step|].
      rewrite length_cons in Hbound. lia.
    + rewrite (heap_bind_Fails _ _ _ _ Hrun). split; [by eauto|].
      intros [Hv Hbound]. rewrite length_cons in Hbound.
      destruct (step_total T o t Hv) as (T' & t' & Hok); [lia|]. congruence.
Qed.

Lemma heap_lifecycle_spec c ops h0 sp :
  match Heap.lifecycle c ops (Heap.mkState h0 sp) with
  | Heap.Done (_, st) => Heap.blocks st = h0
  | Heap.Fails f =>
      (∃ u, f = Heap.Undef u) ∧
      ¬ (0 < c <= INT_MAX ∧ Z.of_nat (length ops) <= INT_MAX)
  end.
Proof.
  unfold Heap.lifecycle.
  destruct (heap_create_spec h0 sp c)
    as [(sp' & Hc)|(ht & h & sp' & cells & Hc & Hht & Htab & Hext & _)];
    rewrite (heap_bind_Done _ _ _ _ _ Hc).
  - by rewrite decide_True.
  - rewrite decide_False by done.
    assert (length (array (mkTable c (empty_buckets c) 0))
            = Z.to_nat (capacity (mkTable c (empty_buckets c) 0))) as Hlen.
    { unfold empty_buckets. simpl. by rewrite length_replicate. }
    pose proof (heap_run_spec h0 ht ops h sp' _ cells Htab Hext Hlen) as Hrun.
    unfold Heap.bind at 1.
    destruct (Heap.run ops ht (Heap.mkState h sp')) as [[[] [h' sp'']]|f].
    + destruct Hrun as (T' & cells' & Htab' & Hext' & Hlen'). simpl in *.
      by rewrite (heap_free_spec h0 h' ht T' cells' sp'' Htab' Hext' Hlen').
    + destruct Hrun as [Hu Hnot]. split; [done|].
      intros [Hcap Hbound]. apply Hnot. split; [by apply valid_create|]. simpl. lia.
Qed.

(** ** The sample heap *)

Lemma sample_heap_table : Heap.table_at sample_heap 100 sample_table sample_cells.
Proof.
  exists 200, [300; 500], [[300; 400; 700; 800]; [500; 600]].
  split_and!; try done.
  - apply (bool_decide_unpack _). reflexivity.
  - split_and!; [done..|].
    intros [|[|i]] p chain cells; simpl; intros [= <-] [= <-] [= <-].
    + exists 400, 700, [700; 800]. split_and!; try done.
      exists 800, 0, []. split_and!; done.
    + exists 600, 0, []. split_and!; done.
Qed.

Lemma sample_heap_extends : Heap.extends foreign_heap sample_heap sample_cells.
Proof.
  split.
  - intros p Hp. unfold sample_cells in Hp. rewrite !elem_of_cons in Hp.
    destruct_or!; subst; try done. by apply elem_of_nil in Hp.
  - intros p Hp. unfold sample_cells in Hp. rewrite !not_elem_of_cons in Hp.
    destruct_and!. unfold sample_heap. by rewrite !lookup_insert_ne.
Qed.

(** ** The heap level against the list level *)

(** X12. [get], followed pointer by pointer through the heap, returns what
    [get] returns on the table the heap holds, is undefined exactly when that
    is, and changes no block and allocates nothing. *)
Theorem heap_get_refines (h : gmap Z Heap.block) (ht : ptr) (T : HashTable)
    (cells : list Z) (sp : list (option Z)) (k : list byte) :
  Heap.table_at h ht T cells →
  Heap.get ht k (Heap.mkState h sp)
  = match get T k with
    | Ok p => Heap.Done (p, Heap.mkState h sp)
    | Undefined u => Heap.Fails (Heap.Undef u)
    end.
Proof. apply heap_get_spec. Qed.

Lemma heap_get_refines_witness :
  Heap.table_at sample_heap 100 sample_table sample_cells ∧
  Heap.get 100 (str "a") (Heap.mkState sample_heap [])
  = match get sample_table (str "a") with
    | Ok p => Heap.Done (p, Heap.mkState sample_heap [])
    | Undefined u => Heap.Fails (Heap.Undef u)
    end.
Proof.
  exact (conj sample_heap_table
           (heap_get_refines sample_heap 100 sample_table sample_cells [] (str "a")
              sample_heap_table)).
Defined.



(** X14. [delete] on the heap does what [delete] does on the table the heap
    holds: same result, and the heap then holds the table after the call.
    When a node is removed, exactly two blocks, the node and its key, leave
    the table and are freed; no block outside the table is changed. *)
Theorem heap_delete_refines (h0 h : gmap Z Heap.block) (ht : ptr)
    (T : HashTable) (cells : list Z) (sp : list (option Z)) (k : list byte) :
  Heap.table_at h ht T cells → Heap.extends h0 h cells →
  match delete T k with
  | Ok (b, T') =>
      ∃ h' cells',
        Heap.delete ht k (Heap.mkState h sp) = Heap.Done (b, Heap.mkState h' sp) ∧
        Heap.table_at h' ht T' cells' ∧ Heap.extends h0 h' cells' ∧
        length cells = ((if b then 2 else 0) + length cells')%nat
  | Undefined u =>
      Heap.delete ht k (Heap.mkState h sp) = Heap.Fails (Heap.Undef u)
  end.
Proof. apply heap_delete_spec. Qed.

Lemma heap_delete_refines_witness :
  (Heap.table_at sample_heap 100 sample_table sample_cells ∧
   Heap.extends foreign_heap sample_heap sample_cells) ∧
  match delete sample_table (str "a") with
  | Ok (b, T') =>
      ∃ h' cells',
        Heap.delete 100 (str "a") (Heap.mkState sample_heap [])
        = Heap.Done (b, Heap.mkState h' []) ∧
        Heap.table_at h' 100 T' cells' ∧ Heap.extends foreign_heap h' cells' ∧
        length sample_cells = ((if b then 2 else 0) + length cells')%nat
  | Undefined u =>
      Heap.delete 100 (str "a") (Heap.mkState sample_heap [])
      = Heap.Fails (Heap.Undef u)
  end.
Proof.
  exact (conj (conj sample_heap_table sample_heap_extends)
           (heap_delete_refines foreign_heap sample_heap 100 sample_table sample_cells
              [] (str "a") sample_heap_table sample_heap_extends)).
Defined.

(** X15. [createHashTable] on the heap either returns [NULL] and leaves the
    heap exactly as it found it (the table block is freed again when the
    bucket array cannot be allocated), or returns the address of a table of
    two fresh blocks, the table block and the bucket array, that holds the
    empty table of the list level. *)
Theorem heap_createHashTable (h0 : gmap Z Heap.block) (sp : list (option Z))
    (c : Z) :
  (∃ sp', Heap.createHashTable c (Heap.mkState h0 sp)
          = Heap.Done (NULL, Heap.mkState h0 sp'))
  ∨ (∃ ht h sp' cells,
       Heap.createHashTable c (Heap.mkState h0 sp)
       = Heap.Done (ht, Heap.mkState h sp') ∧
       ht ≠ NULL ∧
       Heap.table_at h ht (mkTable c (empty_buckets c) 0) cells ∧
       Heap.extends h0 h cells ∧ length cells = 2%nat).
Proof. apply heap_create_spec. Qed.

(** X16. [freeHashTable] frees every block of the table, each once: every
    node, every key copy, the bucket array and the table block; it frees and
    changes nothing else, so the heap is again the heap without the table.
    On [NULL] it does nothing. *)
Theorem freeHashTable_releases (h0 h : gmap Z Heap.block) (ht : ptr)
    (T : HashTable) (cells : list Z) (sp : list (option Z)) :
  Heap.table_at h ht T cells → Heap.extends h0 h cells →
  length (array T) = Z.to_nat (capacity T) →
  Heap.freeHashTable ht (Heap.mkState h sp) = Heap.Done (tt, Heap.mkState h0 sp) ∧
  Heap.freeHashTable NULL (Heap.mkState h sp) = Heap.Done (tt, Heap.mkState h sp).
Proof. intros Htab Hext Hlen. split; [by eapply heap_free_spec|done]. Qed.

Lemma freeHashTable_releases_witness :
  (Heap.table_at sample_heap 100 sample_table sample_cells ∧
   Heap.extends foreign_heap sample_heap sample_cells ∧
   length (array sample_table) = Z.to_nat (capacity sample_table)) ∧
  (Heap.freeHashTable 100 (Heap.mkState sample_heap [])
   = Heap.Done (tt, Heap.mkState foreign_heap []) ∧
   Heap.freeHashTable NULL (Heap.mkState sample_heap [])
   = Heap.Done (tt, Heap.mkState sample_heap [])).
Proof.
  assert (length (array sample_table) = Z.to_nat (capacity sample_table)) as H
    by reflexivity.
  exact (conj (conj sample_heap_table (conj sample_heap_extends H))
           (freeHashTable_releases foreign_heap sample_heap 100 sample_table
              sample_cells [] sample_heap_table sample_heap_extends H)).
Defined.

(** X17. A whole life of a table, create, any calls, free, under any
    allocator and from any heap: it commits no memory error (no access
    through [NULL] or to a freed block, no double free, no endless loop);
    the only ways it does not return are the undefined behaviours of the
    calls themselves; and when it returns, the heap is exactly what it was
    before: nothing leaks and nothing else was touched. *)
Theorem lifecycle_no_leak (c : Z) (ops : list op) (h0 : gmap Z Heap.block)
    (sp : list (option Z)) :
  match Heap.lifecycle c ops (Heap.mkState h0 sp) with
  | Heap.Done (_, st) => Heap.blocks st = h0
  | Heap.Fails f => ∃ u, f = Heap.Undef u
  end.
Proof.
  pose proof (heap_lifecycle_spec c ops h0 sp) as H.
  destruct (Heap.lifecycle c ops (Heap.mkState h0 sp)) as [[? st]|f]; [done|].
  by destruct H.
Qed.

(** X18. With a positive capacity and no more than [INT_MAX] calls the life
    of a table always returns, whatever the allocator grants or refuses, and
    gives the heap back as it was. *)
Theorem lifecycle_returns (c : Z) (ops : list op) (h0 : gmap Z Heap.block)
    (sp : list (option Z)) :
  0 < c <= INT_MAX → Z.of_nat (length ops) <= INT_MAX →
  ∃ sp', Heap.lifecycle c ops (Heap.mkState h0 sp)
         = Heap.Done (tt, Heap.mkState h0 sp').
Proof.
  intros Hc Hn. pose proof (heap_lifecycle_spec c ops h0 sp) as H.
  destruct (Heap.lifecycle c ops (Heap.mkState h0 sp)) as [[[] [h sp']]|f].
  - simpl in H. subst h. by exists sp'.
  - destruct H as [_ []]. done.
Qed.

Lemma lifecycle_returns_witness :
  (0 < 2 <= INT_MAX ∧
   Z.of_nat (length [Insert (str "a") 10; Insert (str "c") 30; Insert (str "e") 50;
                     Get (str "c"); Delete (str "a"); Insert (str "b") 20])
   <= INT_MAX) ∧
  ∃ sp', Heap.lifecycle 2
           [Insert (str "a") 10; Insert (str "c") 30; Insert (str "e") 50;
            Get (str "c"); Delete (str "a"); Insert (str "b") 20]
           (Heap.mkState foreign_heap
              [Some 100; Some 200; Some 300; Some 400; Some 500; None; Some 5;
               Some 600; Some 700; Some 800])
         = Heap.Done (tt, Heap.mkState foreign_heap sp').
Proof.
  assert (0 < 2 <= INT_MAX) as H1 by (vm_compute; split; congruence).
  assert (Z.of_nat (length [Insert (str "a") 10; Insert (str "c") 30;
                            Insert (str "e") 50; Get (str "c"); Delete (str "a");
                            Insert (str "b") 20]) <= INT_MAX) as H2
    by (vm_compute; congruence).
  exact (conj (conj H1 H2) (lifecycle_returns 2 _ foreign_heap _ H1 H2)).
Defined.

(** * The debugging dump *)

Lemma string_append_nil_r (s : string) : String.append s EmptyString = s.
Proof.
  induction s as [|a s IH]; [done|].
  change (String a (String.append s EmptyString) = String a s). by f_equal.
Qed.

Lemma string_append_assoc (s1 s2 s3 : string) :
  String.append (String.append s1 s2) s3 = String.append s1 (String.append s2 s3).
Proof.
  induction s1 as [|a s1 IH]; [done|].
  change (String a (String.append (String.append s1 s2) s3)
          = String a (String.append s1 (String.append s2 s3))).
  by f_equal.
Qed.

Lemma string_concat_cons (x : string) (xs : list string) :
  String.concat EmptyString (x :: xs)
  = String.append x (String.concat EmptyString xs).
Proof.
  destruct xs as [|y ys]; [|reflexivity].
  symmetry. apply string_append_nil_r.
Qed.

Lemma print_chain_keys chain :
  print_chain chain
  = String.concat EmptyString
      ((λ k, String.append " [" (String.append (string_of_list_byte k) "]->"))
         <$> ((λ e, c_str (key e)) <$> chain)).
Proof.
  induction chain as [|node next IH]; [done|].
  rewrite !fmap_cons, string_concat_cons, <- IH. cbn [print_chain].
  unfold characters. by rewrite !string_append_assoc.
Qed.

Lemma print_buckets_describe ht buckets :
  ∀ (i : nat),
    drop i (array ht) = buckets →
    print_buckets (length buckets) ht (Z.of_nat i)
    = Ok (String.concat EmptyString (render_bucket <$> describe_from i buckets)).
Proof.
  induction buckets as [|chain rest IH]; intros i Hdrop; [done|].
  assert (array ht !! i = Some chain) as Hi.
  { rewrite <- (Nat.add_0_r i), <- lookup_drop, Hdrop. done. }
  assert (drop (S i) (array ht) = rest) as Hrest.
  { rewrite (drop_S _ _ _ Hi) in Hdrop. by injection Hdrop. }
  cbn [length print_buckets]. rewrite (bucket_at_lookup _ _ _ Hi). simpl.
  replace (Z.of_nat i + 1) with (Z.of_nat (S i)) by lia.
  rewrite (IH (S i) Hrest). simpl. destruct chain as [|node next]; [done|].
  cbn [describe_from]. rewrite fmap_cons, string_concat_cons. do 2 f_equal.
  unfold render_bucket. cbn [fst snd]. by rewrite print_chain_keys.
Qed.

(** X19. The dump shows the keys bucket by bucket: when the bucket array has
    [capacity] buckets, [printHashTable] reads no bucket out of bounds and
    writes the header line with the size and the capacity, then one line for
    each bucket that is not empty, in index order, with the index and the
    keys of the chain in chain order.  Empty buckets and values are not
    shown. *)
Theorem printHashTable_describes (ht : HashTable) :
  Z.of_nat (length (array ht)) = capacity ht →
  printHashTable ht = Ok (render (size ht) (capacity ht) (describe ht)).
Proof.
  intros Hlen. unfold printHashTable, render, describe.
  replace (Z.to_nat (capacity ht)) with (length (array ht)) by lia.
  change 0 with (Z.of_nat 0).
  by rewrite (print_buckets_describe ht (array ht) 0%nat eq_refl).
Qed.

Lemma printHashTable_describes_witness :
  Z.of_nat (length (array crowded_table)) = capacity crowded_table ∧
  printHashTable crowded_table
  = Ok (render (size crowded_table) (capacity crowded_table)
          (describe crowded_table)).
Proof.
  assert (Z.of_nat (length (array crowded_table)) = capacity crowded_table) as H
    by reflexivity.
  exact (conj H (printHashTable_describes crowded_table H)).
Defined.

(** The sample heap is what the calls of the code build, and [freeHashTable]
    takes it down again. *)
Example sample_heap_built :
  Heap.bind (Heap.createHashTable 2)
    (λ ht, Heap.bind
             (Heap.run [Insert (str "a") 10; Insert (str "b") 20; Insert (str "c") 30] ht)
             (λ _, Heap.ret ht))
    (Heap.mkState foreign_heap
       [Some 100; Some 200; Some 700; Some 800; Some 500; Some 600; Some 300; Some 400])
  = Heap.Done (100, Heap.mkState sample_heap []).
Proof. vm_compute. reflexivity. Qed.

Example sample_heap_freed :
  Heap.freeHashTable 100 (Heap.mkState sample_heap [])
  = Heap.Done (tt, Heap.mkState foreign_heap []).
Proof. vm_compute. reflexivity. Qed.

(** Freeing the table twice is caught as an error of the second call. *)
Example sample_heap_freed_twice :
  Heap.bind (Heap.freeHashTable 100) (λ _, Heap.freeHashTable 100)
    (Heap.mkState sample_heap [])
  = Heap.Fails Heap.Dangling.
Proof. vm_compute. reflexivity. Qed.
